(** * Football play-by-play logger and scoring-summary compressor

    A shallow embedding of two pieces of the football code base:

    - [PlayByPlayLogger] (src/football/worker/core/GameSim/PlayByPlayLogger.js):
      the class that turns play notifications into narration entries and a
      scoring-only sub-log, with its two-point-conversion bookkeeping;
    - [ScoringSummary] (the [processEvents] function of the football box
      score component): the loop that condenses a scoring event stream into
      display rows while it keeps a running score.

    JavaScript numbers that hold counts and yardages are modelled as [Z].
    The game clock, a fractional number of minutes, is a double: it is
    given as a rational [Q] that stands for the double it rounds to, and
    the arithmetic on it rounds as doubles do ([JsNumber]).  Strings are
    sequences of 8-bit characters, and [toLowerCase] is the ASCII case
    mapping. *)

From Stdlib Require Import ZArith QArith Qround Qabs Qpower Qreduction
  Ascii String DecimalString DecimalPos DecimalFacts Lqa.
From stdpp Require Import base tactics option list.

Local Open Scope Z_scope.

(* ===================================================================== *)
(** * JavaScript string primitives *)
(* ===================================================================== *)

Module JsString.

Notation "a ^^ b" := (String.append a b)
  (at level 60, right associativity).

(** [s.includes(sub)]: [sub] occurs in [s] as a contiguous substring. *)
Fixpoint includes (sub s : string) : bool :=
  String.prefix sub s ||
  match s with
  | EmptyString => false
  | String _ s' => includes sub s'
  end.

(** The substring relation that [includes] decides. *)
Definition contains (sub s : string) : Prop :=
  exists a b, s = a ^^ sub ^^ b.

Definition lowerChar (c : ascii) : ascii :=
  let n := nat_of_ascii c in
  if (65 <=? n)%nat && (n <=? 90)%nat then ascii_of_nat (n + 32) else c.

(** [s.toLowerCase()] on ASCII text. *)
Fixpoint toLowerCase (s : string) : string :=
  match s with
  | EmptyString => EmptyString
  | String c s' => String (lowerChar c) (toLowerCase s')
  end.

(** Template rendering of an integral number, [`${n}`]. *)
Definition showZ (n : Z) : string := NilZero.string_of_int (Z.to_int n).

(** Template rendering of a possibly missing number. *)
Definition showNum (n : option Z) : string :=
  match n with
  | Some z => showZ z
  | None => "undefined"%string
  end.

(** [names[i]] rendered inside a template: a missing element prints as
    the word undefined. *)
Definition nameAt (names : list string) (i : nat) : string :=
  match names !! i with
  | Some s => s
  | None => "undefined"%string
  end.

(** JavaScript truthiness of an optional boolean flag. *)
Definition truthy (b : option bool) : bool :=
  match b with
  | Some true => true
  | _ => false
  end.

(** Truthiness of a string that may still be unassigned. *)
Definition nonEmpty (s : string) : bool :=
  match s with
  | EmptyString => false
  | String _ _ => true
  end.

End JsString.

(* ===================================================================== *)
(** * JavaScript numbers *)
(* ===================================================================== *)

Module JsNumber.
Import JsString.

(** ** Doubles

    A finite double is a rational [m * 2^e] with [|m| < 2^53] and
    [-1074 <= e <= 971].  An operation on doubles returns the double
    nearest to the exact result, a tie going to the one with the even
    significand; a result of size [2^1024] or more is an infinity. *)

(** [2^e], for an exponent of either sign. *)
Definition pow2 (e : Z) : Q := (2 ^ e)%Q.

(** The exponent of the leading bit of a positive rational:
    [2^(ilog2 x) <= x < 2^(ilog2 x + 1)]. *)
Definition ilog2 (x : Q) : Z :=
  let k := Z.log2 (Qnum x) - Z.log2 (Zpos (Qden x)) in
  if Qle_bool (pow2 k) x then k else k - 1.

(** The nearest integer, a tie going to the even one. *)
Definition roundHalfEven (x : Q) : Z :=
  let f := Qfloor x in
  match (x - inject_Z f ?= 1 # 2)%Q with
  | Lt => f
  | Gt => f + 1
  | Eq => if Z.even f then f else f + 1
  end.

(** The exponent of the last place of a double of the size of [x]:
    53 significant bits, and [2^-1074] the smallest step. *)
Definition ulpExp (x : Q) : Z := Z.max (ilog2 (Qabs x) - 52) (-1074).

(** Rounding to nearest in the double format, before the range check. *)
Definition nearest (x : Q) : Q :=
  if Qeq_bool x 0 then 0%Q
  else
    let e := ulpExp x in
    Qred (inject_Z (roundHalfEven (x * pow2 (- e))) * pow2 e).

(** A number that is not [NaN]: a finite double, given by its value,
    or an infinity.  The sign of a zero is not kept; it does not show
    in what is printed. *)
Inductive Double :=
| Finite (q : Q)
| Infinite (negative : bool).

(** The double a real number rounds to: what a literal, an arithmetic
    operation or a conversion yields for the exact value [x]. *)
Definition toDouble (x : Q) : Double :=
  let y := nearest x in
  if Qle_bool (pow2 1024) (Qabs y)
  then Infinite (negb (Qle_bool 0 y))
  else Finite y.

(** ** Number to string, for a double with an integral value

    The digits printed are the fewest that still denote a number that
    rounds to the double; up to 21 digits before the point the number
    is printed in full, with zeros after these digits, and beyond that
    with an exponent. *)

(** The integer [c] rounds to the double with the value [v]. *)
Definition roundsTo (v c : Z) : bool :=
  match toDouble (inject_Z c) with
  | Finite q => Qeq_bool q (inject_Z v)
  | Infinite _ => false
  end.

(** The multiple of a power of ten with the fewest significant digits
    that still rounds to [v], the nearest one if two do; powers of ten
    are tried from [10^j] down. *)
Fixpoint shortestFrom (j : nat) (v : Z) : Z :=
  let p := 10 ^ Z.of_nat j in
  let lo := v / p * p in
  let hi := lo + p in
  let okLo := (0 <? lo) && roundsTo v lo in
  let okHi := roundsTo v hi in
  if okLo && okHi then
    match v - lo ?= hi - v with
    | Lt => lo
    | Gt => hi
    | Eq => if Z.even (lo / p) then lo else hi
    end
  else if okLo then lo
  else if okHi then hi
  else match j with
       | O => v
       | S j' => shortestFrom j' v
       end.

(** The number of decimal digits of a positive integer. *)
Definition numDigits (v : Z) : nat := String.length (showZ v).

(** A positive integer without its trailing zeros. *)
Fixpoint dropZeros (fuel : nat) (s : Z) : Z :=
  match fuel with
  | O => s
  | S fuel' => if s mod 10 =? 0 then dropZeros fuel' (s / 10) else s
  end.

(** What is printed for a positive integral double of size [2^53] or
    more. *)
Definition showPositive (v : Z) : string :=
  let c := shortestFrom (numDigits v) v in
  let n := numDigits c in
  if (n <=? 21)%nat then showZ c
  else
    let digits := showZ (dropZeros n c) in
    match digits with
    | String d EmptyString =>
        String d ("e+" ^^ showZ (Z.of_nat n - 1))
    | String d rest =>
        String d ("." ^^ rest ^^ "e+" ^^ showZ (Z.of_nat n - 1))
    | EmptyString => EmptyString
    end.

(** [`${v}`] for the double with the integral value [v]: below [2^53]
    every integer is a double and prints in full. *)
Definition showIntegral (v : Z) : string :=
  if Z.abs v <? 2 ^ 53 then showZ v
  else if 0 <? v then showPositive v
  else "-" ^^ showPositive (- v).

(** A number with an integral value, or an infinity. *)
Inductive Integral :=
| Int (n : Z)
| Inf (negative : bool).

(** The number for the mathematical integer [z]: the double nearest to
    it. *)
Definition nearestIntegral (z : Z) : Integral :=
  match toDouble (inject_Z z) with
  | Finite q => Int (Qfloor q)
  | Infinite negative => Inf negative
  end.

End JsNumber.

(* ===================================================================== *)
(** * The scoring-summary compressor: [processEvents] *)
(* ===================================================================== *)

Module ScoringSummary.
Import JsString.

(** [t: 0 | 1] *)
Inductive TeamNum := T0 | T1.

Definition TeamNum_eqb (a b : TeamNum) : bool :=
  match a, b with
  | T0, T0 | T1, T1 => true
  | _, _ => false
  end.

(** [score: [number, number]] *)
Abbreviation Score := (Z * Z)%type.

(** [score[t] += n] *)
Definition addPoints (t : TeamNum) (n : Z) (score : Score) : Score :=
  match t with
  | T0 => (fst score + n, snd score)
  | T1 => (fst score, snd score + n)
  end.

(** The [scoreType] strings; [null] is [None]. *)
Inductive ScoreType := XP | FG | TD | TwoP.

Definition isXP (s : option ScoreType) : bool :=
  match s with Some XP => true | _ => false end.
Definition is2P (s : option ScoreType) : bool :=
  match s with Some TwoP => true | _ => false end.

(** The point table in the words of the specification: the score type
    and the points a text earns, by the phrases it contains.  Only the
    two-point phrase is looked up in the lower-cased text. *)
Inductive PointTable (text : string) : option ScoreType -> Z -> Prop :=
| extra_point_made :
    contains "extra point" text -> contains "made" text ->
    PointTable text (Some XP) 1
| extra_point_missed :
    contains "extra point" text -> ~ contains "made" text ->
    PointTable text (Some XP) 0
| field_goal_made :
    ~ contains "extra point" text -> contains "field goal" text ->
    contains "made" text ->
    PointTable text (Some FG) 3
| field_goal_missed :
    ~ contains "extra point" text -> contains "field goal" text ->
    ~ contains "made" text ->
    PointTable text (Some FG) 0
| touchdown :
    ~ contains "extra point" text -> ~ contains "field goal" text ->
    contains "touchdown" text ->
    PointTable text (Some TD) 6
| two_point_good :
    ~ contains "extra point" text -> ~ contains "field goal" text ->
    ~ contains "touchdown" text ->
    contains "two point" (toLowerCase text) ->
    ~ contains "failed" text ->
    PointTable text (Some TwoP) 2
| two_point_failed :
    ~ contains "extra point" text -> ~ contains "field goal" text ->
    ~ contains "touchdown" text ->
    contains "two point" (toLowerCase text) ->
    contains "failed" text ->
    PointTable text (Some TwoP) 0
| no_score :
    ~ contains "extra point" text -> ~ contains "field goal" text ->
    ~ contains "touchdown" text ->
    ~ contains "two point" (toLowerCase text) ->
    PointTable text None 0.

(** The heap of score arrays: a list indexed by location. *)
Abbreviation Heap := (list Score).

Section Rows.
(** The types of the [quarter] and [time] fields are declared outside
    the function; [processEvents] only copies these fields. *)
Context {Quarter Time : Type}.

(** [ScoringSummaryEvent] *)
Record Event := mkEvent {
  hide : bool;
  ev_t : TeamNum;
  ev_quarter : Quarter;
  ev_time : Time;
  ev_text : string
}.

(** An element of [processedEvents].  [S] is the type of the [score]
    field: a heap location while the loop runs, a score pair once the
    result is read. *)
Record Row (S : Type) := mkRow {
  t : TeamNum;
  quarter : Quarter;
  time : Time;
  text : string;
  score : S;
  scoreType : option ScoreType
}.
Global Arguments mkRow {S}.
Global Arguments t {S}.
Global Arguments quarter {S}.
Global Arguments time {S}.
Global Arguments text {S}.
Global Arguments score {S}.
Global Arguments scoreType {S}.

(** The classification chain of the loop body: the score type derived
    from the text, and the running score after its [+=]. *)
Definition classify (event : Event) (score : Score)
  : option ScoreType * Score :=
  if includes "extra point" (ev_text event) then
    (Some XP,
     if includes "made" (ev_text event)
     then addPoints (ev_t event) 1 score else score)
  else if includes "field goal" (ev_text event) then
    (Some FG,
     if includes "made" (ev_text event)
     then addPoints (ev_t event) 3 score else score)
  else if includes "touchdown" (ev_text event) then
    (Some TD, addPoints (ev_t event) 6 score)
  else if includes "two point" (toLowerCase (ev_text event)) then
    (Some TwoP,
     if negb (includes "failed" (ev_text event))
     then addPoints (ev_t event) 2 score else score)
  else (None, score).

(** [prevEvent.text += ` (${event.text})`] *)
Definition mergedText (prev cur : string) : string :=
  prev ^^ " (" ^^ cur ^^ ")".

(** ** The loop over a heap of score arrays

    The running score is one array that the loop mutates in place;
    every row refers to an array of its own.  Arrays live in a heap,
    a list indexed by location; allocation appends. *)

Definition alloc (h : Heap) (v : Score) : nat * Heap :=
  (length h, h ++ [v]).

Definition readScore (h : Heap) (l : nat) : Score :=
  default (0, 0) (h !! l).

(** [score.slice()]: a new array with the elements of the array at [l]. *)
Definition slice (h : Heap) (l : nat) : nat * Heap :=
  alloc h (readScore h l).

(** Modelled from the spec: [helpers.deepCopy] is imported from outside
    these sources.  The specification has a new row pushed with a
    deep-copied score snapshot: for an array of two numbers, a new array
    with the same two numbers. *)
Definition deepCopy (h : Heap) (l : nat) : nat * Heap :=
  alloc h (readScore h l).

Record LoopState := mkLoop {
  heap : Heap;
  scoreRef : nat;
  processedEvents : list (Row nat)
}.

(** [const processedEvents = []; const score = [0, 0];] *)
Definition initLoop : LoopState :=
  let '(l, h) := alloc [] (0, 0) in mkLoop h l [].

(** One iteration of [for (const event of events)]. *)
Definition loopBody (st : LoopState) (event : Event) : LoopState :=
  if hide event then st
  else
    let '(sType, newScore) :=
      classify event (readScore (heap st) (scoreRef st)) in
    let h1 := <[scoreRef st := newScore]> (heap st) in
    let rows := processedEvents st in
    let last := (length rows - 1)%nat in
    let pushRow :=
      let '(l, h2) := deepCopy h1 (scoreRef st) in
      mkLoop h2 (scoreRef st)
        (rows ++ [mkRow (ev_t event) (ev_quarter event) (ev_time event)
                    (ev_text event) l sType]) in
    let mergeInto (prevEvent : Row nat) :=
      let '(l, h2) := slice h1 (scoreRef st) in
      mkLoop h2 (scoreRef st)
        (<[last := mkRow (t prevEvent) (quarter prevEvent)
                     (time prevEvent)
                     (mergedText (text prevEvent) (ev_text event))
                     l (scoreType prevEvent)]> rows) in
    match rows !! last with
    | Some prevEvent =>
        if isXP sType then mergeInto prevEvent
        else if is2P sType && TeamNum_eqb (ev_t event) (t prevEvent)
        then mergeInto prevEvent
        else pushRow
    | None => pushRow
    end.

Definition runLoop (events : list Event) : LoopState :=
  fold_left loopBody events initLoop.

(** What a reader of the returned rows sees: each row with the
    contents of its score array. *)
Definition resolveRow (h : Heap) (r : Row nat) : Row Score :=
  mkRow (t r) (quarter r) (time r) (text r) (readScore h (score r))
    (scoreType r).

Definition snapshot (st : LoopState) : list (Row Score) :=
  map (resolveRow (heap st)) (processedEvents st).

Definition processEvents (events : list Event) : list (Row Score) :=
  snapshot (runLoop events).

(** ** The same loop on values

    With every row holding its own score pair the heap disappears.
    [processEvents_by_value] below shows that this loop returns what
    the heap loop returns. *)

Definition pushedRow (event : Event) (sType : option ScoreType)
  (s : Score) : Row Score :=
  mkRow (ev_t event) (ev_quarter event) (ev_time event) (ev_text event)
    s sType.

Definition mergedRow (prevEvent : Row Score) (event : Event) (s : Score)
  : Row Score :=
  mkRow (t prevEvent) (quarter prevEvent) (time prevEvent)
    (mergedText (text prevEvent) (ev_text event)) s
    (scoreType prevEvent).

(** The merge test of the loop body. *)
Definition merges (sType : option ScoreType) (event : Event)
  (prevEvent : Row Score) : bool :=
  isXP sType || (is2P sType && TeamNum_eqb (ev_t event) (t prevEvent)).

Definition valueBody (st : Score * list (Row Score)) (event : Event)
  : Score * list (Row Score) :=
  if hide event then st
  else
    let '(sType, newScore) := classify event (fst st) in
    let rows := snd st in
    match last rows with
    | Some prevEvent =>
        if merges sType event prevEvent
        then (newScore,
              removelast rows ++ [mergedRow prevEvent event newScore])
        else (newScore, rows ++ [pushedRow event sType newScore])
    | None => (newScore, rows ++ [pushedRow event sType newScore])
    end.

Definition valueLoop (events : list Event) : Score * list (Row Score) :=
  fold_left valueBody events ((0, 0), []).

(** The running score once [events] have been consumed. *)
Definition runningScore (events : list Event) : Score :=
  let st := runLoop events in readScore (heap st) (scoreRef st).

(** The score type the classification chain assigns to an event; the
    chain reads the text only. *)
Definition scoreTypeOf (event : Event) : option ScoreType :=
  fst (classify event (0, 0)).

(** The points the chain adds to the side of an event. *)
Definition pointsOf (event : Event) : Z :=
  let s := snd (classify event (0, 0)) in fst s + snd s.



(** The heap discipline of the loop: the running score sits at
    location 0 and every row points at an allocated array other than
    it. *)
Definition wfLoop (st : LoopState) : Prop :=
  scoreRef st = 0%nat /\
  (0 < length (heap st))%nat /\
  Forall (fun r : Row nat => (0 < score r < length (heap st))%nat)
    (processedEvents st).

(** [getCount] *)
Definition getCount (events : list Event) : nat :=
  length (filter (fun e => hide e = false) events).

End Rows.
(** The concrete case of the specification: a rush, a touchdown run and
    a made extra point, all by side 0 and none hidden.  The case leaves
    quarter and time open. *)
Definition concreteCase : list (@Event unit unit) :=
  [ mkEvent false T0 tt tt "rushed for 5 yards";
    mkEvent false T0 tt tt "rushed for 2 yards and a touchdown!";
    mkEvent false T0 tt tt "made the extra point" ].

Global Arguments Event : clear implicits.
Global Arguments Row : clear implicits.
Global Arguments LoopState : clear implicits.

End ScoringSummary.


(* ===================================================================== *)
(** * The producer: [PlayByPlayLogger] *)
(* ===================================================================== *)

Module PlayByPlayLogger.
Import JsString JsNumber.

(** The destructured second argument of [logEvent].  Every field but
    [clock] may be left out.  [clock] is a double, given as a rational
    that stands for the double it rounds to. *)
Module Fields.
Record T := mk {
  clock : Q;
  lost : option bool;
  made : option bool;
  names : option (list string);
  quarter : option Z;
  safety : option bool;
  t : option Z;
  td : option bool;
  touchback : option bool;
  twoPointConversionTeam : option Z;
  yds : option Z
}.
End Fields.

(** An object with [type: "text"], shared by both logs.  [time] is
    missing on a synthesized entry whose predecessor has no [time]. *)
Module Event.
Record T := mk {
  text : string;
  t : option Z;
  time : option string;
  quarter : string
}.
End Event.

(** An element of [playByPlay]: a text event, or a [type: "stat"]
    object pushed by [logStat]. *)
Inductive Entry :=
| TextEntry (event : Event.T)
| StatEntry (qtr : string) (t pid : Z) (s : string) (amt : Z).

(** [previousEvent.time] *)
Definition entryTime (e : Entry) : option string :=
  match e with
  | TextEntry event => Event.time event
  | StatEntry _ _ _ _ _ => None
  end.

(** ["attempting" | "converted" | void] *)
Inductive TwoPointState := attempting | converted.

Definition isAttempting (s : option TwoPointState) : bool :=
  match s with Some attempting => true | _ => false end.

Record Logger := mkLogger {
  active : bool;
  playByPlay : list Entry;
  scoringSummary : list Event.T;
  twoPointConversionState : option TwoPointState;
  twoPointConversionTeam : option Z;
  quarter : string
}.

(** [constructor(active)] *)
Definition new (active : bool) : Logger :=
  mkLogger active [] [] None None "Q1".

(** ** Methods as state transformers that may throw

    A method call maps the logger to an outcome and the logger it
    leaves behind; what was mutated before a [throw] stays mutated. *)

Inductive Outcome (A : Type) :=
| Returned (a : A)
| Thrown (msg : string).
Global Arguments Returned {A}.
Global Arguments Thrown {A}.

Definition M (A : Type) : Type := Logger -> Outcome A * Logger.

Definition ret {A} (a : A) : M A := fun this => (Returned a, this).
Definition throw {A} (msg : string) : M A := fun this => (Thrown msg, this).
Definition bind {A B} (m : M A) (k : A -> M B) : M B :=
  fun this =>
    match m this with
    | (Returned a, this') => k a this'
    | (Thrown msg, this') => (Thrown msg, this')
    end.
Definition get : M Logger := fun this => (Returned this, this).
Definition modify (f : Logger -> Logger) : M unit :=
  fun this => (Returned tt, f this).

Notation "x <- m ;; k" := (bind m (fun x => k))
  (at level 100, m at next level, right associativity).
Notation "m ;;; k" := (bind m (fun _ => k))
  (at level 100, right associativity).

(** [if (x === undefined) { throw new Error(msg); }] *)
Definition require {A} (x : option A) (msg : string) : M A :=
  match x with
  | Some a => ret a
  | None => throw msg
  end.

Definition setConversion (s : option TwoPointState) (team : option Z)
  (this : Logger) : Logger :=
  mkLogger (active this) (playByPlay this) (scoringSummary this) s team
    (quarter this).

Definition setQuarter (q : string) (this : Logger) : Logger :=
  mkLogger (active this) (playByPlay this) (scoringSummary this)
    (twoPointConversionState this) (twoPointConversionTeam this) q.

Definition pushPlayByPlay (e : Entry) (this : Logger) : Logger :=
  mkLogger (active this) (playByPlay this ++ [e]) (scoringSummary this)
    (twoPointConversionState this) (twoPointConversionTeam this)
    (quarter this).

Definition pushScoringSummary (e : Event.T) (this : Logger) : Logger :=
  mkLogger (active this) (playByPlay this) (scoringSummary this ++ [e])
    (twoPointConversionState this) (twoPointConversionTeam this)
    (quarter this).

Definition descriptionYdsTD (yds : option Z) (td : bool)
  (touchdownText : string) (showYdsOnTD : bool) : string :=
  if td && showYdsOnTD then
    showNum yds ^^ " yards" ^^
    (if td then " and " ^^ touchdownText ^^ "!" else "")
  else if td then touchdownText ^^ "!"
  else showNum yds ^^ " yards".

Definition updateTwoPointConversionState (td : bool) : M unit :=
  this <- get ;;
  if td && isAttempting (twoPointConversionState this)
  then modify (setConversion (Some converted) (twoPointConversionTeam this))
  else ret tt.

(** [playByPlay[playByPlay.length - 1]] *)
Definition lastEntry (l : list Entry) : option Entry :=
  l !! (length l - 1)%nat.

(** The text of the synthesized entry. *)
Definition failedText : string := "Two point conversion failed".

(** The first statement of [logEvent]: a call without a conversion tag
    closes a pending attempt, a tagged call starts one when none is
    recorded. *)
Definition trackTwoPointConversion (tag : option Z) : M unit :=
  this <- get ;;
  match tag with
  | None =>
      (if isAttempting (twoPointConversionState this) then
         match lastEntry (playByPlay this) with
         | Some previousEvent =>
             let event :=
               Event.mk failedText (twoPointConversionTeam this)
                 (entryTime previousEvent) (quarter this) in
             modify (pushPlayByPlay (TextEntry event)) ;;;
             modify (pushScoringSummary event)
         | None => ret tt
         end
       else ret tt) ;;;
      modify (setConversion None None)
  | Some team =>
      match twoPointConversionState this with
      | None => modify (setConversion (Some attempting) (Some team))
      | Some _ => ret tt
      end
  end.

(** [touchdownText] and [showYdsOnTD] *)
Definition touchdownWording (tag t : option Z) : string * bool :=
  match tag with
  | Some team =>
      if bool_decide (Some team = t)
      then ("a two point conversion"%string, false)
      else ("two points"%string, true)
  | None => ("a touchdown"%string, true)
  end.

(** [Math.floor(clock)]:[sec], seconds padded to two digits.  [clock]
    stands for the double [c] it rounds to.  [clock % 1] is exact and
    has the sign of [clock]; its product with 60 is rounded; [sec] and
    the minutes are printed as numbers are.  For an infinite clock
    [clock % 1] is [NaN], which is not below 10 and prints as such. *)
Definition formatTime (clock : Q) : string :=
  match toDouble clock with
  | Finite c =>
      let whole := if Qle_bool 0 c then Qfloor c else Qceiling c in
      let sec := Qfloor (nearest ((c - inject_Z whole) * 60)) in
      let secText :=
        if sec <? 10 then "0" ^^ showIntegral sec else showIntegral sec in
      showIntegral (Qfloor c) ^^ ":" ^^ secText
  | Infinite negative =>
      (if negative then "-Infinity" else "Infinity") ^^ ":NaN"
  end.

Definition dquote : string := String (ascii_of_nat 34) EmptyString.

Section WithOrdinal.
(** [helpers.ordinal], defined outside this class: the English
    ordinal of a number.  Its result is all the class uses. *)
Variable ordinal : option Z -> string.

(** The chain of [if (type === ...)] that assigns [text].  [None] is
    a [text] left unassigned. *)
Definition renderText (type : string) (f : Fields.T)
  (touchdownText : string) (showYdsOnTD : bool) : M (option string) :=
  let td := truthy (Fields.td f) in
  let safety := truthy (Fields.safety f) in
  let touchback := truthy (Fields.touchback f) in
  let lost := truthy (Fields.lost f) in
  let made := truthy (Fields.made f) in
  if String.eqb type "injury" then
    names <- require (Fields.names f) "Missing names" ;;
    ret (Some (nameAt names 0 ^^ " was injured!"))
  else if String.eqb type "quarter" then
    let text := "Start of " ^^ ordinal (Fields.quarter f) ^^ " quarter" in
    quarter <- require (Fields.quarter f) "Missing quarter" ;;
    modify (setQuarter ("Q" ^^ showZ quarter)) ;;;
    ret (Some text)
  else if String.eqb type "overtime" then
    modify (setQuarter "OT") ;;;
    ret (Some "Start of overtime"%string)
  else if String.eqb type "kickoff" then
    names <- require (Fields.names f) "Missing names" ;;
    yds <- require (Fields.yds f) "Missing yds" ;;
    ret (Some (nameAt names 0 ^^ " kicked off" ^^
               (if touchback then " for a touchback"
                else if yds <? 0 then " into the end zone"
                else " to the " ^^ showZ yds ^^ " yard line")))
  else if String.eqb type "kickoffReturn" then
    names <- require (Fields.names f) "Missing names" ;;
    yds <- require (Fields.yds f) "Missing yds" ;;
    ret (Some (nameAt names 0 ^^ " returned the kickoff " ^^
               showZ yds ^^ " yards" ^^
               (if td then " for a touchdown!" else "")))
  else if String.eqb type "punt" then
    names <- require (Fields.names f) "Missing names" ;;
    yds <- require (Fields.yds f) "Missing yds" ;;
    ret (Some (nameAt names 0 ^^ " punted " ^^
               (if touchback then "for a touchback"
                else if yds <? 0 then "into the end zone"
                else "to the " ^^ showZ yds ^^ " yard line")))
  else if String.eqb type "puntReturn" then
    names <- require (Fields.names f) "Missing names" ;;
    yds <- require (Fields.yds f) "Missing yds" ;;
    ret (Some (nameAt names 0 ^^ " returned the punt " ^^
               showZ yds ^^ " yards" ^^
               (if td then " for a touchdown!" else "")))
  else if String.eqb type "extraPoint" then
    names <- require (Fields.names f) "Missing names" ;;
    ret (Some (nameAt names 0 ^^ " " ^^
               (if made then "made" else "missed") ^^
               " the extra point"))
  else if String.eqb type "fieldGoal" then
    names <- require (Fields.names f) "Missing names" ;;
    yds <- require (Fields.yds f) "Missing yds" ;;
    ret (Some (nameAt names 0 ^^ " " ^^
               (if made then "made" else "missed") ^^
               " a " ^^ showZ yds ^^ " yard field goal"))
  else if String.eqb type "fumble" then
    names <- require (Fields.names f) "Missing names" ;;
    ret (Some (nameAt names 0 ^^ " fumbled the ball!"))
  else if String.eqb type "fumbleRecovery" then
    names <- require (Fields.names f) "Missing names" ;;
    td <- require (Fields.td f) "Missing td" ;;
    yds <- require (Fields.yds f) "Missing yds" ;;
    if safety || touchback then
      ret (Some (nameAt names 0 ^^
                 " recovered the fumble in the endzone, resulting in a " ^^
                 (if safety then "safety!" else "touchback")))
    else if lost then
      let text :=
        nameAt names 0 ^^ " recovered the fumble for the defense " ^^
        (if td && (yds <? 1)
         then "in the endzone for " ^^ touchdownText ^^ "!"
         else "and returned it " ^^ showZ yds ^^ " yards" ^^
              (if td then " for " ^^ touchdownText ^^ "!" else "")) in
      updateTwoPointConversionState td ;;;
      ret (Some text)
    else
      let text :=
        nameAt names 0 ^^ " recovered the fumble for the offense" ^^
        (if td
         then " and carried it into the endzone for " ^^
              touchdownText ^^ "!"
         else "") in
      updateTwoPointConversionState td ;;;
      ret (Some text)
  else if String.eqb type "interception" then
    names <- require (Fields.names f) "Missing names" ;;
    td <- require (Fields.td f) "Missing td" ;;
    yds <- require (Fields.yds f) "Missing yds" ;;
    let text :=
      nameAt names 0 ^^ " intercepted the pass and returned it " ^^
      showZ yds ^^ " yards" ^^
      (if td then " for " ^^ touchdownText ^^ "!" else "") in
    updateTwoPointConversionState td ;;;
    ret (Some text)
  else if String.eqb type "sack" then
    names <- require (Fields.names f) "Missing names" ;;
    yds <- require (Fields.yds f) "Missing yds" ;;
    ret (Some (nameAt names 0 ^^ " was sacked by " ^^ nameAt names 1 ^^
               " for a " ^^
               (if safety then "safety!"
                else showZ yds ^^ " yard loss")))
  else if String.eqb type "dropback" then
    names <- require (Fields.names f) "Missing names" ;;
    ret (Some (nameAt names 0 ^^ " drops back to pass"))
  else if String.eqb type "passComplete" then
    names <- require (Fields.names f) "Missing names" ;;
    td <- require (Fields.td f) "Missing td" ;;
    if safety then
      ret (Some (nameAt names 0 ^^ " completed a pass to " ^^
                 nameAt names 1 ^^
                 " but he was tackled in the endzone for a safety!"))
    else
      let result :=
        descriptionYdsTD (Fields.yds f) td touchdownText showYdsOnTD in
      let text :=
        nameAt names 0 ^^ " completed a pass to " ^^ nameAt names 1 ^^
        " for " ^^ result in
      updateTwoPointConversionState td ;;;
      ret (Some text)
  else if String.eqb type "passIncomplete" then
    names <- require (Fields.names f) "Missing names" ;;
    ret (Some ("Incomplete pass to " ^^ nameAt names 1))
  else if String.eqb type "handoff" then
    names <- require (Fields.names f) "Missing names" ;;
    ret (Some (nameAt names 0 ^^ " hands the ball off to " ^^
               nameAt names 1))
  else if String.eqb type "run" then
    names <- require (Fields.names f) "Missing names" ;;
    td <- require (Fields.td f) "Missing td" ;;
    if safety then
      ret (Some (nameAt names 0 ^^
                 " was tackled in the endzone for a safety!"))
    else
      let result :=
        descriptionYdsTD (Fields.yds f) td touchdownText showYdsOnTD in
      let text := nameAt names 0 ^^ " rushed for " ^^ result in
      updateTwoPointConversionState td ;;;
      ret (Some text)
  else ret None.

(** The condition under which the call's own event also goes to
    [scoringSummary]. *)
Definition isScoring (type : string) (f : Fields.T) : bool :=
  truthy (Fields.safety f) || truthy (Fields.td f) ||
  String.eqb type "extraPoint" ||
  (truthy (Fields.made f) && String.eqb type "fieldGoal").

(** The tail of [logEvent]: [if (text) { ... } else { throw ... }] *)
Definition pushText (type : string) (f : Fields.T) (text : option string)
  : M unit :=
  match text with
  | Some text =>
      if nonEmpty text then
        this <- get ;;
        let event :=
          Event.mk text (Fields.t f)
            (Some (formatTime (Fields.clock f))) (quarter this) in
        modify (pushPlayByPlay (TextEntry event)) ;;;
        if isScoring type f
        then modify (pushScoringSummary event)
        else ret tt
      else throw ("No text for " ^^ dquote ^^ type ^^ dquote)
  | None => throw ("No text for " ^^ dquote ^^ type ^^ dquote)
  end.

(** [logEvent(type, {...})].  The guard [this.playByPlay !== undefined]
    always holds: the constructor assigns an array and nothing ever
    unsets it. *)
Definition logEvent (type : string) (f : Fields.T) : M unit :=
  trackTwoPointConversion (Fields.twoPointConversionTeam f) ;;;
  let '(touchdownText, showYdsOnTD) :=
    touchdownWording (Fields.twoPointConversionTeam f) (Fields.t f) in
  text <- renderText type f touchdownText showYdsOnTD ;;
  pushText type f text.

(** [logStat(qtr, t, pid, s, amt)]; the entry carries the logger's
    quarter label, not the [qtr] argument. *)
Definition logStat (qtr t pid : Z) (s : string) (amt : Z) : M unit :=
  this <- get ;;
  if negb (active this) then ret tt
  else modify (pushPlayByPlay (StatEntry (quarter this) t pid s amt)).

(** [getPlayByPlay(boxScore)]: nothing when inactive, else the log
    behind one [type: "init"] element. *)
Inductive Output (B : Type) :=
| InitEntry (boxScore : B)
| LogEntry (e : Entry).

Definition getPlayByPlay {B} (boxScore : B) (this : Logger)
  : option (list (Output B)) :=
  if negb (active this) then None
  else Some (InitEntry B boxScore :: map (LogEntry B) (playByPlay this)).

(** A run of [logEvent] calls on one logger.  A call that throws
    leaves the logger as it was at the [throw]; the run goes on. *)
Definition logEvents (calls : list (string * Fields.T)) (this : Logger)
  : Logger :=
  fold_left (fun this call => snd (logEvent (fst call) (snd call) this))
    calls this.

End WithOrdinal.

(** ** Summaries of [logEvent] used to state its properties *)

(** The fields that the rule of a type checks before it renders, in
    the order of the checks; [None] for a type that no rule matches. *)
Inductive Field := Fnames | Fquarter | Ftd | Fyds.

Definition requiredFields (type : string) : option (list Field) :=
  if String.eqb type "injury" then Some [Fnames]
  else if String.eqb type "quarter" then Some [Fquarter]
  else if String.eqb type "overtime" then Some []
  else if String.eqb type "kickoff" then Some [Fnames; Fyds]
  else if String.eqb type "kickoffReturn" then Some [Fnames; Fyds]
  else if String.eqb type "punt" then Some [Fnames; Fyds]
  else if String.eqb type "puntReturn" then Some [Fnames; Fyds]
  else if String.eqb type "extraPoint" then Some [Fnames]
  else if String.eqb type "fieldGoal" then Some [Fnames; Fyds]
  else if String.eqb type "fumble" then Some [Fnames]
  else if String.eqb type "fumbleRecovery" then Some [Fnames; Ftd; Fyds]
  else if String.eqb type "interception" then Some [Fnames; Ftd; Fyds]
  else if String.eqb type "sack" then Some [Fnames; Fyds]
  else if String.eqb type "dropback" then Some [Fnames]
  else if String.eqb type "passComplete" then Some [Fnames; Ftd]
  else if String.eqb type "passIncomplete" then Some [Fnames]
  else if String.eqb type "handoff" then Some [Fnames]
  else if String.eqb type "run" then Some [Fnames; Ftd]
  else None.

Definition absent {A} (x : option A) : bool :=
  match x with Some _ => false | None => true end.

Definition missing (f : Fields.T) (field : Field) : bool :=
  match field with
  | Fnames => absent (Fields.names f)
  | Fquarter => absent (Fields.quarter f)
  | Ftd => absent (Fields.td f)
  | Fyds => absent (Fields.yds f)
  end.

(** A contract violation: no rule for the type, or a field that the
    rule requires is missing. *)
Definition violatesContract (type : string) (f : Fields.T) : bool :=
  match requiredFields type with
  | Some fields => existsb (missing f) fields
  | None => true
  end.

(** The calls whose rule reports a touchdown to the conversion state:
    runs, completed passes, interceptions and fumble recoveries that
    are not rendered as a safety or touchback. *)
Definition recordsConversion (type : string) (f : Fields.T) : bool :=
  truthy (Fields.td f) &&
  ((String.eqb type "fumbleRecovery" &&
    negb (truthy (Fields.safety f) || truthy (Fields.touchback f))) ||
   String.eqb type "interception" ||
   (String.eqb type "passComplete" && negb (truthy (Fields.safety f))) ||
   (String.eqb type "run" && negb (truthy (Fields.safety f)))).

(** The quarter label after a call that returns. *)
Definition nextQuarter (type : string) (f : Fields.T) (q : string)
  : string :=
  if String.eqb type "quarter" then
    match Fields.quarter f with
    | Some n => "Q" ^^ showZ n
    | None => q
    end
  else if String.eqb type "overtime" then "OT"
  else q.

(** The entry a call synthesizes before it renders its own: the failed
    conversion, when an untagged call finds an attempt pending and the
    narration log has a last entry. *)
Definition synthesized (tag : option Z) (this : Logger) : list Event.T :=
  match tag with
  | None =>
      if isAttempting (twoPointConversionState this) then
        match lastEntry (playByPlay this) with
        | Some previousEvent =>
            [Event.mk failedText (twoPointConversionTeam this)
               (entryTime previousEvent) (quarter this)]
        | None => []
        end
      else []
  | Some _ => []
  end.

(** The conversion state once the first statement of [logEvent] has
    run. *)
Definition trackedState (tag : option Z) (this : Logger)
  : option TwoPointState * option Z :=
  match tag with
  | None => (None, None)
  | Some team =>
      match twoPointConversionState this with
      | None => (Some attempting, Some team)
      | Some s => (Some s, twoPointConversionTeam this)
      end
  end.

Definition isThrown {A} (o : Outcome A) : bool :=
  match o with Thrown _ => true | Returned _ => false end.

(** The synthesized entries among the entries of a log. *)
Definition isFailure (e : Event.T) : bool :=
  String.eqb (Event.text e) failedText.

Definition failures (l : list Event.T) : list Event.T :=
  List.filter isFailure l.

(** Every call that logs stamps its entry with the label the logger
    holds when the call ends: the last entry of the narration log is a
    text event that carries the current label. *)
Definition quarterStamped (this : Logger) : Prop :=
  forall entry, lastEntry (playByPlay this) = Some entry ->
    exists e, entry = TextEntry e /\ Event.quarter e = quarter this.

Definition tagged (call : string * Fields.T) : Prop :=
  Fields.twoPointConversionTeam (snd call) <> None.

Definition setActive (b : bool) (this : Logger) : Logger :=
  mkLogger b (playByPlay this) (scoringSummary this)
    (twoPointConversionState this) (twoPointConversionTeam this)
    (quarter this).

(** What the chain of rules leaves behind. *)
Definition renderPost (type : string) (f : Fields.T) (this : Logger)
  (r : Outcome (option string) * Logger) : Prop :=
  match r with
  | (Thrown _, this') =>
      this' = this /\ violatesContract type f = true /\
      requiredFields type <> None
  | (Returned None, this') =>
      this' = this /\ requiredFields type = None
  | (Returned (Some s), this') =>
      nonEmpty s = true /\ s <> failedText /\
      violatesContract type f = false /\
      this' =
        mkLogger (active this) (playByPlay this) (scoringSummary this)
          (if recordsConversion type f &&
              isAttempting (twoPointConversionState this)
           then Some converted else twoPointConversionState this)
          (twoPointConversionTeam this)
          (nextQuarter type f (quarter this))
  end.

(** What one call of [logEvent] does to the logger. *)
Definition logEventPost (type : string) (f : Fields.T) (this : Logger)
  (r : Outcome unit * Logger) : Prop :=
  let tag := Fields.twoPointConversionTeam f in
  let tracked := trackedState tag this in
  exists own : list Event.T,
    playByPlay (snd r)
    = playByPlay this ++ map TextEntry (synthesized tag this ++ own) /\
    scoringSummary (snd r)
    = scoringSummary this ++ synthesized tag this ++
      (if isScoring type f then own else []) /\
    active (snd r) = active this /\
    twoPointConversionTeam (snd r) = snd tracked /\
    if violatesContract type f then
      isThrown (fst r) = true /\ own = [] /\
      twoPointConversionState (snd r) = fst tracked /\
      quarter (snd r) = quarter this
    else
      fst r = Returned tt /\
      twoPointConversionState (snd r)
      = (if recordsConversion type f && isAttempting (fst tracked)
         then Some converted else fst tracked) /\
      quarter (snd r) = nextQuarter type f (quarter this) /\
      exists text,
        nonEmpty text = true /\ text <> failedText /\
        own = [Event.mk text (Fields.t f)
                 (Some (formatTime (Fields.clock f))) (quarter (snd r))].

(** ** Sample calls *)

(** A stand-in for [helpers.ordinal], to run the class on examples. *)
Definition sampleOrdinal (n : option Z) : string :=
  match n with
  | Some n => showZ n ^^ "th"
  | None => ""
  end.

(** [logEvent(type, { clock })] *)
Definition onlyClock (clock : Q) : Fields.T :=
  Fields.mk clock None None None None None None None None None None.

(** [{ clock, names: [name], t, td, twoPointConversionTeam, yds }] *)
Definition play (clock : Q) (name : string) (t : Z) (td : bool)
  (tag : option Z) (yds : Z) : Fields.T :=
  Fields.mk clock None None (Some [name]) None None (Some t) (Some td)
    None tag (Some yds).

(** A touchdown run by team 0, then the first play of its two-point
    attempt: a run that does not score. *)
Definition pendingAttempt : list (string * Fields.T) :=
  [ ("run"%string, play 1 "A" 0 true None 2);
    ("run"%string, play 1 "B" 0 false (Some 0) 1) ].

(** [{ clock, made, names: [name], t }] *)
Definition kick (clock : Q) (name : string) (t : Z) (made : bool)
  : Fields.T :=
  Fields.mk clock None (Some made) (Some [name]) None None (Some t) None
    None None None.

End PlayByPlayLogger.

(* ===================================================================== *)
(** * The scoring summary as the box score shows it *)
(* ===================================================================== *)

Module ScoringSummaryView.
Import JsString JsNumber ScoringSummary.

Section Totals.
Context {Quarter Time : Type}.

(** The events the loop does not skip. *)
Definition shown (events : list (Event Quarter Time))
  : list (Event Quarter Time) :=
  filter (fun e => hide e = false) events.

(** The points that the shown events of one side earn together. *)
Definition sidePoints (side : TeamNum) (events : list (Event Quarter Time))
  : Z :=
  foldr (fun e acc =>
           if hide e then acc
           else if TeamNum_eqb (ev_t e) side then pointsOf e + acc
           else acc) 0 events.

(** What a row owes to the event that opened it. *)
Definition openedBy (events : list (Event Quarter Time))
  (row : Row Quarter Time Score) : Prop :=
  exists e, In e events /\ hide e = false /\
            t row = ev_t e /\ quarter row = ev_quarter e /\
            time row = ev_time e /\ scoreType row = scoreTypeOf e /\
            String.prefix (ev_text e) (text row) = true.

End Totals.

(** ** [parseInt] and [replace], as the view uses them *)

(** White space that [parseInt] skips, among the code units of an 8-bit
    string: tab, line feed, vertical tab, form feed, carriage return,
    space and the no-break space.  The other white space of the
    language has code units beyond 255, which these strings do not
    hold. *)
Definition isWhite (c : ascii) : bool :=
  let n := nat_of_ascii c in
  ((9 <=? n)%nat && (n <=? 13)%nat) || (n =? 32)%nat || (n =? 160)%nat.

Fixpoint trimStart (s : string) : string :=
  match s with
  | String c s' => if isWhite c then trimStart s' else s
  | EmptyString => EmptyString
  end.

(** The value of a character as a digit of the radix, if it is one. *)
Definition digitValue (radix : Z) (c : ascii) : option Z :=
  let n := Z.of_nat (nat_of_ascii c) in
  let v :=
    if (48 <=? n) && (n <=? 57) then Some (n - 48)
    else if (97 <=? n) && (n <=? 122) then Some (n - 87)
    else if (65 <=? n) && (n <=? 90) then Some (n - 55)
    else None in
  match v with
  | Some d => if d <? radix then Some d else None
  | None => None
  end.

(** The value of the longest prefix of digits, continuing from [acc]. *)
Fixpoint digitsFrom (radix : Z) (s : string) (acc : Z) : Z :=
  match s with
  | String c s' =>
      match digitValue radix c with
      | Some d => digitsFrom radix s' (acc * radix + d)
      | None => acc
      end
  | EmptyString => acc
  end.

(** [NaN], here [None], when the string does not start with a digit. *)
Definition parseDigits (radix : Z) (s : string) : option Z :=
  match s with
  | String c s' =>
      match digitValue radix c with
      | Some d => Some (digitsFrom radix s' d)
      | None => None
      end
  | EmptyString => None
  end.

(** After the sign: a [0x] or [0X] prefix selects radix 16. *)
Definition parseUnsigned (s : string) : option Z :=
  match s with
  | String "0" (String c r) =>
      if Ascii.eqb c "x" || Ascii.eqb c "X" then parseDigits 16 r
      else parseDigits 10 s
  | _ => parseDigits 10 s
  end.

(** The mathematical integer that the sign and the digits denote. *)
Definition parseInteger (input : string) : option Z :=
  match trimStart input with
  | String "-" r => option_map Z.opp (parseUnsigned r)
  | String "+" r => parseUnsigned r
  | s => parseUnsigned s
  end.

(** [parseInt(input)] without a radix: [NaN], here [None], when there
    is no digit to read; otherwise the number for the integer read,
    which is rounded to a double beyond [2^53] and is an infinity from
    [2^1024] on.  The digits are taken exactly, and a negative zero is
    not told from zero. *)
Definition parseInt (input : string) : option Integral :=
  option_map nearestIntegral (parseInteger input).

(** [s.replace("Q", "")]: the first Q is dropped. *)
Fixpoint dropFirstQ (s : string) : string :=
  match s with
  | String c s' => if Ascii.eqb c "Q" then s' else String c (dropFirstQ s')
  | EmptyString => EmptyString
  end.

(** ** The [ScoringSummary] component *)

Record Team := mkTeam {
  abbrev : string;
  name : string;
  region : string
}.

(** One [Fragment] of the table body: the optional header row with the
    name of the quarter, and the cells of the event row.  The score cell
    prints both scores, the one of [boldSide] in bold. *)
Record TableRow (Time : Type) := mkTableRow {
  quarterHeader : option string;
  teamCell : string;
  scoreTypeCell : option ScoreType;
  scoreCell : Score;
  boldSide : TeamNum;
  timeCell : Time;
  textCell : string
}.
Arguments mkTableRow {Time}.
Arguments quarterHeader {Time}.
Arguments teamCell {Time}.
Arguments scoreTypeCell {Time}.
Arguments scoreCell {Time}.
Arguments boldSide {Time}.
Arguments timeCell {Time}.
Arguments textCell {Time}.

(** What the component returns: the paragraph that says None, or the
    table. *)
Inductive View (Time : Type) :=
| NoEvents
| Table (rows : list (TableRow Time)).
Arguments NoEvents {Time}.
Arguments Table {Time}.

Section Component.
Context {Time : Type}.
(** [helpers.ordinal] and [getPeriodName], imported from outside these
    sources.  [ordinalInfinity] is [helpers.ordinal] at the two
    infinities, which [parseInt] returns for a number too long. *)
Variable ordinal : option Z -> string.
Variable ordinalInfinity : bool -> string.
Variable getPeriodName : Z -> string.

(** [quarterText] *)
Definition quarterText (numPeriods : Z) (quarter : string) : string :=
  if String.eqb quarter "OT" then "Overtime"
  else
    match parseInt (dropFirstQ quarter) with
    | Some (Int n) => ordinal (Some n) ^^ " " ^^ getPeriodName numPeriods
    | Some (Inf negative) =>
        ordinalInfinity negative ^^ " " ^^ getPeriodName numPeriods
    | None => "???"
    end.

(** [teams[event.t]] *)
Definition teamOf (teams : Team * Team) (side : TeamNum) : Team :=
  match side with T0 => fst teams | T1 => snd teams end.

(** [event.quarter === prevQuarter], with [prevQuarter] possibly still
    unassigned. *)
Definition sameQuarter (quarter : string) (prevQuarter : option string)
  : bool :=
  match prevQuarter with
  | Some q => String.eqb quarter q
  | None => false
  end.

(** The callback of [processedEvents.map]; [prevQuarter] is the variable
    it shares with the calls before it, unassigned at first. *)
Definition renderEvent (numPeriods : Z) (teams : Team * Team)
  (prevQuarter : option string) (event : Row string Time Score)
  : option string * TableRow Time :=
  let label := quarterText numPeriods (quarter event) in
  let '(prevQuarter', header) :=
    if sameQuarter (quarter event) prevQuarter
    then (prevQuarter, None)
    else (Some (quarter event), Some label) in
  (prevQuarter',
   mkTableRow header (abbrev (teamOf teams (t event))) (scoreType event)
     (score event) (t event) (time event) (text event)).

Fixpoint renderEvents (numPeriods : Z) (teams : Team * Team)
  (prevQuarter : option string) (rows : list (Row string Time Score))
  : list (TableRow Time) :=
  match rows with
  | [] => []
  | event :: rest =>
      let '(prevQuarter', row) :=
        renderEvent numPeriods teams prevQuarter event in
      row :: renderEvents numPeriods teams prevQuarter' rest
  end.

(** The props of the component. *)
Record Props := mkProps {
  count : nat;
  events : list (Event string Time);
  numPeriods : Z;
  teams : Team * Team
}.

(** The function that [memo] wraps. *)
Definition render (props : Props) : View Time :=
  let processedEvents := processEvents (events props) in
  if (length processedEvents =? 0)%nat then NoEvents
  else Table (renderEvents (numPeriods props) (teams props) None
                processedEvents).

(** [memo(render, (prevProps, nextProps) => prevProps.count ===
    nextProps.count)]: what is on screen after new props arrive, given
    what was on screen for the previous ones. *)
Definition memoized (prevProps : Props) (prevView : View Time)
  (nextProps : Props) : View Time :=
  if (count prevProps =? count nextProps)%nat then prevView
  else render nextProps.

(** The part of [BoxScore] that feeds the component. *)
Record BoxScore := mkBoxScore {
  gid : Z;
  scoringSummary : list (Event string Time);
  boxTeams : Team * Team;
  boxNumPeriods : option Z
}.

(** The props [BoxScore] passes: [count={getCount(...)}],
    [numPeriods={boxScore.numPeriods ?? 4}]. *)
Definition propsOf (boxScore : BoxScore) : Props :=
  mkProps (getCount (scoringSummary boxScore)) (scoringSummary boxScore)
    (default 4 (boxNumPeriods boxScore)) (boxTeams boxScore).

End Component.
Arguments Props : clear implicits.
Arguments BoxScore : clear implicits.

(** ** A sample box score *)

(** A stand-in for [helpers.ordinal] at the infinities. *)
Definition sampleOrdinalInfinity (negative : bool) : string :=
  if negative then "-Infinityth" else "Infinityth".

(** A stand-in for [getPeriodName]. *)
Definition samplePeriodName (numPeriods : Z) : string :=
  if numPeriods =? 4 then "quarter" else "period".

(** A touchdown with its extra point in the first quarter, a hidden
    event, a field goal in the second quarter. *)
Definition sampleSummary : list (Event string string) :=
  [ mkEvent false T0 "Q1"%string "9:12"%string
      "A rushed for 4 yards and a touchdown!";
    mkEvent false T0 "Q1"%string "9:12"%string "K made the extra point";
    mkEvent true T1 "Q1"%string "3:40"%string "B rushed for 1 yards";
    mkEvent false T1 "Q2"%string "14:03"%string
      "L made a 33 yard field goal" ].

Definition sampleTeams : Team * Team :=
  (mkTeam "ATL" "Herons" "Atlanta", mkTeam "BOS" "Massacre" "Boston").

End ScoringSummaryView.

(* ===================================================================== *)
(** * Runs of logger calls *)
(* ===================================================================== *)

Module PlayByPlayCalls.
Import JsString PlayByPlayLogger.

(** A call of one of the two logging methods. *)
Inductive Call :=
| LogEvent (type : string) (f : Fields.T)
| LogStat (qtr t pid : Z) (s : string) (amt : Z).

Section WithOrdinal.
Variable ordinal : option Z -> string.

Definition call (c : Call) : M unit :=
  match c with
  | LogEvent type f => logEvent ordinal type f
  | LogStat qtr t pid s amt => logStat qtr t pid s amt
  end.

(** A run of calls on one logger; a call that throws leaves the logger
    as it was at the [throw], and the run goes on. *)
Definition runCalls (calls : list Call) (this : Logger) : Logger :=
  fold_left (fun this c => snd (call c this)) calls this.

End WithOrdinal.

(** The logger as the first statement of [logEvent] leaves it. *)
Definition tracked (f : Fields.T) (this : Logger) : Logger :=
  let tag := Fields.twoPointConversionTeam f in
  mkLogger (active this)
    (playByPlay this ++ map TextEntry (synthesized tag this))
    (scoringSummary this ++ synthesized tag this)
    (fst (trackedState tag this)) (snd (trackedState tag this))
    (quarter this).



(** The team of an attempt is recorded exactly while a state is. *)
Definition teamTracksState (this : Logger) : Prop :=
  twoPointConversionState this = None <-> twoPointConversionTeam this = None.

End PlayByPlayCalls.

(* ===================================================================== *)
(** * Characters of a string *)
(* ===================================================================== *)

Module JsStringChars.

(** The character [c] occurs in [m]. *)
Fixpoint occurs (c : ascii) (m : string) : bool :=
  match m with
  | EmptyString => false
  | String x m' => Ascii.eqb c x || occurs c m'
  end.

End JsStringChars.

(* ===================================================================== *)
(** * Free agency: [autoSign] *)
(* ===================================================================== *)

Module AutoSign.

Record Contract := mkContract {
  amount : Z;
  exp : Z
}.

Record Player := mkPlayer {
  pid : Z;
  value : Z;
  contract : Contract
}.

(** The game attributes [g] that [autoSign] reads, and
    [local.autoPlaySeasons]. *)
Record Settings := mkSettings {
  numTeams : nat;
  userTids : list nat;
  phase : Z;
  daysLeft : Z;
  maxRosterSize : Z;
  salaryCap : Z;
  minContract : Z;
  autoPlaySeasons : Z
}.

(** One call of [player.sign], with what the team had read before it. *)
Record Signing := mkSigning {
  signedPlayer : Player;
  signedBy : nat;
  payrollThen : Z;
  rosterThen : Z
}.

(** The condition under which a team signs a free agent. *)
Definition canSign (g : Settings) (payroll numPlayersOnRoster : Z)
  (p : Player) : bool :=
  (amount (contract p) + payroll <=? salaryCap g) ||
  ((amount (contract p) =? minContract g) &&
   (numPlayersOnRoster <? maxRosterSize g - 2)).

(** The inner [for] loop up to its [break]: the index and the player of
    the first free agent, from index [i] on, that the team can sign. *)
Fixpoint findSigning (g : Settings) (payroll numPlayersOnRoster : Z)
  (i : nat) (rest : list Player) : option (nat * Player) :=
  match rest with
  | [] => None
  | p :: rest' =>
      if canSign g payroll numPlayersOnRoster p then Some (i, p)
      else findSigning g payroll numPlayersOnRoster (S i) rest'
  end.

Section WithLeague.
(** What lies outside these sources: the database with the players in
    it, read through [indexGetAll(...).length] and [team.getPayroll] and
    written by [player.sign], [players.put] and [team.rosterAutoSort];
    [PHASE.FREE_AGENCY]; lodash's [orderBy] on the value, descending;
    [random.shuffle]; and the draws of [Math.random], numbered in the
    order the loop makes them. *)
Context {League : Type}.
Variable rosterLength : League -> nat -> nat.
Variable getPayroll : League -> nat -> Z.
Variable signAndSort : Player -> nat -> League -> League.
Variable FREE_AGENCY : Z.
Variable orderByValueDesc : list Player -> list Player.
Variable shuffle : list nat -> list nat.
Variable mathRandom : nat -> Q.

Record Loop := mkLoop {
  league : League;
  playersSorted : list Player;
  draws : nat;
  signings : list Signing
}.

Definition drew (n : nat) (st : Loop) : Loop :=
  mkLoop (league st) (playersSorted st) n (signings st).

(** [x < y] on numbers. *)
Definition lessThan (x y : Q) : bool := negb (Qle_bool y x).

(** The body of [for (const tid of tids)]. *)
Definition teamTurn (g : Settings) (strategies : list string) (st : Loop)
  (tid : nat) : Loop :=
  if existsb (Nat.eqb tid) (userTids g) && (autoPlaySeasons g =? 0) then st
  else
    let '(skip, n1) :=
      if phase g =? FREE_AGENCY
      then (lessThan (mathRandom (draws st))
              ((99 # 100) * inject_Z (daysLeft g) / 30),
            S (draws st))
      else (false, draws st) in
    if skip then drew n1 st
    else
      let '(skip, n2) :=
        if match strategies !! tid with
           | Some strategy => String.eqb strategy "rebuilding"
           | None => false
           end
        then (lessThan (mathRandom n1) (7 # 10), S n1)
        else (false, n1) in
      if skip then drew n2 st
      else
        let numPlayersOnRoster := Z.of_nat (rosterLength (league st) tid) in
        let payroll := getPayroll (league st) tid in
        if numPlayersOnRoster <? maxRosterSize g then
          match findSigning g payroll numPlayersOnRoster 0
                  (playersSorted st) with
          | Some (i, p) =>
              mkLoop (signAndSort p tid (league st))
                (delete i (playersSorted st)) n2
                (signings st ++
                 [mkSigning p tid payroll numPlayersOnRoster])
          | None => drew n2 st
          end
        else drew n2 st.

(** [autoSign], given what the two reads at its start returned: the
    strategies of the teams and the free agents. *)
Definition autoSign (g : Settings) (strategies : list string)
  (players : list Player) (db : League) : Loop :=
  if (length players =? 0)%nat then mkLoop db players 0 []
  else
    let playersSorted := orderByValueDesc players in
    let tids := shuffle (seq 0 (numTeams g)) in
    fold_left (teamTurn g strategies) tids (mkLoop db playersSorted 0 []).

End WithLeague.

(** A signing as the code allows it: the roster had room, the contract
    fitted under the cap or was a minimum contract with more than two
    places free, and the team was not a user's team, unless seasons are
    played automatically. *)
Definition allowed (g : Settings) (s : Signing) : Prop :=
  rosterThen s < maxRosterSize g /\
  (amount (contract (signedPlayer s)) + payrollThen s <= salaryCap g \/
   (amount (contract (signedPlayer s)) = minContract g /\
    rosterThen s < maxRosterSize g - 2)) /\
  (~ In (signedBy s) (userTids g) \/ autoPlaySeasons g <> 0).

(** ** A sample league *)

(** A league that never changes: every team has 40 players and a payroll
    of 80000. *)
Definition sampleSettings : Settings :=
  mkSettings 3 [1%nat] 8 10 53 90000 500 0.

Definition samplePlayers : list Player :=
  [ mkPlayer 11 70 (mkContract 12000 2030);
    mkPlayer 12 60 (mkContract 9000 2029);
    mkPlayer 13 40 (mkContract 500 2028) ].

Definition sampleAutoSign : @Loop unit :=
  autoSign (fun _ _ => 40%nat) (fun _ _ => 80000) (fun _ _ db => db) 8
    (fun players => players) (fun tids => tids) (fun _ => 1%Q)
    sampleSettings ["contending"; "rebuilding"; "contending"]%string
    samplePlayers tt.

End AutoSign.

(* ===================================================================== *)
(** * Two digits *)
(* ===================================================================== *)

Module TwoDigits.

(** The decimal digit [d] as a character. *)
Definition digitChar (d : Z) : ascii := ascii_of_nat (48 + Z.to_nat d).

(** A number below 100 written with two digits. *)
Definition twoDigits (n : Z) : string :=
  String (digitChar (n / 10)) (String (digitChar (n mod 10)) EmptyString).

End TwoDigits.

(* ===================================================================== *)
(** * Facts about the string primitives *)
(* ===================================================================== *)

Module JsStringFacts.
Import JsString.

Lemma prefix_append (m b : string) : String.prefix m (m ^^ b) = true.
Proof.
  induction m as [|c m IH]; simpl.
  - now destruct b.
  - destruct (ascii_dec c c) as [_|n]; [exact IH | now destruct n].
Qed.

Lemma prefix_split (m s : string) :
  String.prefix m s = true -> exists b, s = m ^^ b.
Proof.
  revert s; induction m as [|c m IH]; intros s H.
  - now exists s.
  - destruct s as [|d s]; simpl in H; [discriminate|].
    destruct (ascii_dec c d) as [->|]; [|discriminate].
    destruct (IH s H) as [b ->]. now exists b.
Qed.

(** [includes] finds the marker wherever it starts. *)
Lemma includes_prefix (m s : string) :
  String.prefix m s = true -> includes m s = true.
Proof. destruct s; simpl; intros ->; reflexivity. Qed.

Lemma includes_here (m b : string) : includes m (m ^^ b) = true.
Proof. apply includes_prefix, prefix_append. Qed.

Lemma includes_skip (m a s : string) :
  includes m s = true -> includes m (a ^^ s) = true.
Proof.
  intros H; induction a as [|c a IH]; simpl; [exact H|].
  rewrite IH. apply orb_true_r.
Qed.

Lemma includes_self (m : string) : includes m m = true.
Proof.
  destruct m as [|c m]; [reflexivity|].
  simpl. destruct (ascii_dec c c) as [_|n]; [|now destruct n].
  replace (String.prefix m m) with true; [reflexivity|].
  symmetry. clear c. induction m as [|c m IH]; simpl; [reflexivity|].
  destruct (ascii_dec c c) as [_|n]; [exact IH | now destruct n].
Qed.

(** [includes] decides the substring relation. *)
Lemma includes_spec (m s : string) :
  includes m s = true <-> contains m s.
Proof.
  unfold contains. split.
  - induction s as [|c s IH]; simpl; intros H.
    + rewrite orb_false_r in H. destruct m; [|discriminate].
      now exists EmptyString, EmptyString.
    + apply orb_true_iff in H as [H|H].
      * destruct (prefix_split m (String c s) H) as [b E].
        exists EmptyString, b. exact E.
      * destruct (IH H) as (a & b & ->).
        now exists (String c a), b.
  - intros (a & b & ->). apply includes_skip, includes_here.
Qed.

Lemma nonEmpty_append_r (a b : string) :
  nonEmpty b = true -> nonEmpty (a ^^ b) = true.
Proof. destruct a, b; simpl; congruence. Qed.

Lemma nonEmpty_append_l (a b : string) :
  nonEmpty a = true -> nonEmpty (a ^^ b) = true.
Proof. destruct a; simpl; congruence. Qed.

End JsStringFacts.

(* ===================================================================== *)
(** * Facts about the last element of an array *)
(* ===================================================================== *)

Module ArrayFacts.

Lemma lookup_last_snoc {A} (l : list A) (x : A) :
  (l ++ [x]) !! (length (l ++ [x]) - 1)%nat = Some x.
Proof.
  rewrite length_app; simpl.
  replace (length l + 1 - 1)%nat with (length l) by lia.
  rewrite lookup_app_r by lia. rewrite Nat.sub_diag. reflexivity.
Qed.

Lemma insert_last_snoc {A} (l : list A) (x y : A) :
  <[(length (l ++ [x]) - 1)%nat := y]> (l ++ [x]) = l ++ [y].
Proof.
  rewrite length_app; simpl.
  replace (length l + 1 - 1)%nat with (length l) by lia.
  rewrite insert_app_r_alt by lia. rewrite Nat.sub_diag. reflexivity.
Qed.

End ArrayFacts.

(* ===================================================================== *)
(** * Facts about [processEvents] *)
(* ===================================================================== *)

Module ScoringSummaryFacts.
Import ArrayFacts.
Import JsString ScoringSummary.

Section Rows.
Context {Quarter Time : Type}.
Abbreviation Event := (Event Quarter Time).
Abbreviation Row := (Row Quarter Time).
Abbreviation LoopState := (LoopState Quarter Time).

(** ** Heap discipline of the loop *)

Lemma readScore_update (h : Heap) (v : Score) :
  (0 < length h)%nat -> readScore (<[0%nat := v]> h) 0 = v.
Proof.
  intros H. unfold readScore.
  rewrite list_lookup_insert_eq by exact H. reflexivity.
Qed.

Lemma readScore_alloc_old (h : Heap) (v w : Score) (l : nat) :
  (0 < l < length h)%nat ->
  readScore (<[0%nat := v]> h ++ [w]) l = readScore h l.
Proof.
  intros [H0 H1]. unfold readScore.
  rewrite lookup_app_l by (rewrite length_insert; exact H1).
  rewrite list_lookup_insert_ne by lia. reflexivity.
Qed.

Lemma readScore_alloc_zero (h : Heap) (v w : Score) :
  (0 < length h)%nat -> readScore (<[0%nat := v]> h ++ [w]) 0 = v.
Proof.
  intros H. unfold readScore.
  rewrite lookup_app_l by (rewrite length_insert; exact H).
  rewrite list_lookup_insert_eq by exact H. reflexivity.
Qed.

Lemma readScore_alloc_new (h : Heap) (v w : Score) :
  readScore (<[0%nat := v]> h ++ [w]) (length h) = w.
Proof.
  unfold readScore.
  rewrite lookup_app_r by (rewrite length_insert; lia).
  rewrite length_insert, Nat.sub_diag. reflexivity.
Qed.

Lemma resolve_alloc_old (h : Heap) (v w : Score) (rows : list (Row nat)) :
  Forall (fun r : Row nat => (0 < score r < length h)%nat) rows ->
  map (resolveRow (<[0%nat := v]> h ++ [w])) rows = map (resolveRow h) rows.
Proof.
  induction 1 as [|r rows Hr _ IH]; simpl; [reflexivity|].
  rewrite IH. f_equal. unfold resolveRow.
  rewrite readScore_alloc_old by exact Hr. reflexivity.
Qed.

Lemma Forall_widen (h : Heap) (w : Score) v (rows : list (Row nat)) :
  Forall (fun r : Row nat => (0 < score r < length h)%nat) rows ->
  Forall (fun r : Row nat =>
            (0 < score r < length (<[0%nat := v]> h ++ [w]))%nat) rows.
Proof.
  intros H. eapply Forall_impl; [exact H|].
  intros r Hr; simpl in *.
  rewrite length_app, length_insert; simpl. lia.
Qed.

(** One iteration of the heap loop is one iteration of the value
    loop, and keeps the heap discipline. *)
Lemma loopBody_sim (st : LoopState) (event : Event) :
  wfLoop st ->
  wfLoop (loopBody st event) /\
  (readScore (heap (loopBody st event)) 0, snapshot (loopBody st event))
  = valueBody (readScore (heap st) 0, snapshot st) event.
Proof.
  intros (Href & Hlen & Hrows).
  unfold loopBody, valueBody. destruct (hide event).
  { split; [now repeat split | reflexivity]. }
  rewrite Href. cbn [fst snd].
  destruct (classify event (readScore (heap st) 0)) as [sType newScore].
  unfold snapshot, slice, deepCopy, alloc.
  set (h1 := <[0%nat := newScore]> (heap st)).
  assert (Hnew : readScore h1 0 = newScore)
    by (apply readScore_update; exact Hlen).
  rewrite Hnew.
  assert (Hwf : forall rows' : list (Row nat),
             Forall (fun r : Row nat =>
                       (0 < score r < length (h1 ++ [newScore]))%nat) rows' ->
             wfLoop (mkLoop (h1 ++ [newScore]) 0 rows')).
  { intros rows' H. split; [reflexivity|]. split; [|exact H].
    cbn [heap]. rewrite length_app; simpl; lia. }
  assert (Hlen1 : length h1 = length (heap st))
    by (unfold h1; apply length_insert).
  assert (Hpush : forall x : Row nat,
             score x = length h1 ->
             Forall (fun r : Row nat =>
                       (0 < score r < length (h1 ++ [newScore]))%nat)
               (processedEvents st ++ [x])).
  { intros x Hx. apply Forall_app; split.
    - apply Forall_widen, Hrows.
    - constructor; [|constructor].
      rewrite Hx, length_app, Hlen1; simpl; lia. }
  destruct (last (processedEvents st)) as [prev|] eqn:Elast.
  - apply last_Some in Elast as [rows0 Erows].
    rewrite Erows in *. clear Erows.
    apply Forall_app in Hrows as [Hrows0 Hprev].
    rewrite lookup_last_snoc, insert_last_snoc.
    rewrite map_app; simpl. rewrite last_snoc.
    rewrite removelast_last.
    unfold merges. cbn [resolveRow t].
    destruct (isXP sType); cbn [orb];
      [|destruct (is2P sType && TeamNum_eqb (ev_t event) (t prev))].
    all: cbn [heap processedEvents scoreRef]; split.
    all: try (apply Hwf).
    + apply Forall_app; split; [apply Forall_widen, Hrows0|].
      constructor; [|constructor]. cbn [score].
      rewrite length_app, Hlen1; simpl; lia.
    + unfold h1. rewrite readScore_alloc_zero by exact Hlen.
      rewrite map_app, resolve_alloc_old by exact Hrows0.
      unfold resolveRow, mergedRow, pushedRow.
      cbn [map score t quarter time text scoreType].
      rewrite length_insert, readScore_alloc_new. reflexivity.
    + apply Forall_app; split; [apply Forall_widen, Hrows0|].
      constructor; [|constructor]. cbn [score].
      rewrite length_app, Hlen1; simpl; lia.
    + unfold h1. rewrite readScore_alloc_zero by exact Hlen.
      rewrite map_app, resolve_alloc_old by exact Hrows0.
      unfold resolveRow, mergedRow, pushedRow.
      cbn [map score t quarter time text scoreType].
      rewrite length_insert, readScore_alloc_new. reflexivity.
    + apply Hpush. reflexivity.
    + unfold h1. rewrite readScore_alloc_zero by exact Hlen.
      rewrite map_app, resolve_alloc_old
        by (apply Forall_app; split; assumption).
      unfold resolveRow, mergedRow, pushedRow.
      cbn [map score t quarter time text scoreType].
      rewrite length_insert, readScore_alloc_new, map_app. reflexivity.
  - apply last_None in Elast. rewrite Elast in *.
    cbn [length Nat.sub lookup list_lookup app map].
    cbn [heap processedEvents scoreRef]; split.
    + apply Hwf. constructor; [|constructor]. cbn [score].
      rewrite length_app, Hlen1; simpl; lia.
    + unfold h1. rewrite readScore_alloc_zero by exact Hlen.
      unfold resolveRow, mergedRow, pushedRow.
      cbn [map score t quarter time text scoreType].
      rewrite length_insert, readScore_alloc_new. reflexivity.
Qed.

Lemma wfLoop_init : wfLoop (@initLoop Quarter Time).
Proof. repeat split; simpl; auto. Qed.

Lemma fold_sim (events : list Event) (st : LoopState) :
  wfLoop st ->
  wfLoop (fold_left loopBody events st) /\
  (readScore (heap (fold_left loopBody events st)) 0,
   snapshot (fold_left loopBody events st))
  = fold_left valueBody events (readScore (heap st) 0, snapshot st).
Proof.
  revert st; induction events as [|event events IH]; intros st Hwf.
  - split; [exact Hwf | reflexivity].
  - simpl. destruct (loopBody_sim st event Hwf) as [Hwf' <-].
    apply IH, Hwf'.
Qed.

Lemma wfLoop_run (events : list Event) : wfLoop (runLoop events).
Proof. apply fold_sim, wfLoop_init. Qed.

(** The heap loop and the value loop return the same rows and hold
    the same running score. *)
Lemma runLoop_by_value (events : list Event) :
  (runningScore events, processEvents events) = valueLoop events.
Proof.
  unfold runningScore, processEvents, valueLoop.
  destruct (wfLoop_run events) as [-> _].
  apply (fold_sim events initLoop wfLoop_init).
Qed.

Lemma processEvents_by_value (events : list Event) :
  processEvents events = snd (valueLoop events).
Proof. now rewrite <- runLoop_by_value. Qed.

Lemma runningScore_by_value (events : list Event) :
  runningScore events = fst (valueLoop events).
Proof. now rewrite <- runLoop_by_value. Qed.

Lemma run_snoc (events : list Event) (event : Event) :
  (runningScore (events ++ [event]), processEvents (events ++ [event]))
  = valueBody (runningScore events, processEvents events) event.
Proof.
  rewrite !runLoop_by_value. unfold valueLoop.
  rewrite fold_left_app. reflexivity.
Qed.

(** ** The classification chain *)

Lemma addPoints_zero (side : TeamNum) (s : Score) : addPoints side 0 s = s.
Proof. destruct side, s; simpl; f_equal; lia. Qed.

Lemma classify_points (event : Event) (s : Score) :
  classify event s
  = (scoreTypeOf event, addPoints (ev_t event) (pointsOf event) s).
Proof.
  unfold scoreTypeOf, pointsOf, classify.
  repeat match goal with
         | |- context [if ?b then _ else _] => destruct b
         end;
    cbn [fst snd negb]; f_equal;
    try (symmetry; apply addPoints_zero);
    destruct (ev_t event), s; simpl; f_equal; lia.
Qed.


Lemma includes_false (m s : string) :
  includes m s = false -> ~ contains m s.
Proof.
  intros H C. apply JsStringFacts.includes_spec in C. congruence.
Qed.

(** The chain computes the specification's point table. *)
Lemma classify_table (event : Event) :
  PointTable (ev_text event) (scoreTypeOf event) (pointsOf event).
Proof.
  unfold scoreTypeOf, pointsOf, classify.
  destruct (includes "extra point" (ev_text event)) eqn:Hxp;
    [destruct (includes "made" (ev_text event)) eqn:Hmade|
     destruct (includes "field goal" (ev_text event)) eqn:Hfg;
     [destruct (includes "made" (ev_text event)) eqn:Hmade|
      destruct (includes "touchdown" (ev_text event)) eqn:Htd;
      [|destruct (includes "two point" (toLowerCase (ev_text event)))
          eqn:H2p;
        [destruct (includes "failed" (ev_text event)) eqn:Hfail|]]]];
    repeat match goal with
           | H : includes _ _ = true |- _ =>
               apply JsStringFacts.includes_spec in H
           | H : includes _ _ = false |- _ => apply includes_false in H
           end;
    destruct (ev_t event); cbn [fst snd negb addPoints Z.add];
    now constructor.
Qed.

Lemma PointTable_functional (text : string) sType1 n1 sType2 n2 :
  PointTable text sType1 n1 -> PointTable text sType2 n2 ->
  sType1 = sType2 /\ n1 = n2.
Proof.
  destruct 1; destruct 1; try (split; reflexivity); contradiction.
Qed.

(** ** One event more *)

Lemma step_hidden (events : list Event) (event : Event) :
  hide event = true ->
  runningScore (events ++ [event]) = runningScore events /\
  processEvents (events ++ [event]) = processEvents events.
Proof.
  intros Hh. pose proof (run_snoc events event) as H.
  unfold valueBody in H. rewrite Hh in H. now inversion H.
Qed.

Lemma step_shown (events : list Event) (event : Event) :
  hide event = false ->
  let now := addPoints (ev_t event) (pointsOf event) (runningScore events) in
  let rows := processEvents events in
  runningScore (events ++ [event]) = now /\
  processEvents (events ++ [event]) =
    match last rows with
    | Some prevEvent =>
        if merges (scoreTypeOf event) event prevEvent
        then removelast rows ++ [mergedRow prevEvent event now]
        else rows ++ [pushedRow event (scoreTypeOf event) now]
    | None => rows ++ [pushedRow event (scoreTypeOf event) now]
    end.
Proof.
  intros Hh now rows. pose proof (run_snoc events event) as H.
  unfold valueBody in H. rewrite Hh in H. cbn [fst snd] in H.
  rewrite classify_points in H. fold now rows in H.
  destruct (last rows) as [prev|];
    [destruct (merges (scoreTypeOf event) event prev)|];
    now inversion H.
Qed.

(** ** Score arrays are never shared with the running score *)




(** ** Scores only grow *)








Lemma TeamNum_eqb_eq (a b : TeamNum) : TeamNum_eqb a b = true <-> a = b.
Proof. destruct a, b; simpl; split; congruence. Qed.

Lemma merges_true (event : Event) (prev : Row Score) :
  merges (scoreTypeOf event) event prev = true <->
  scoreTypeOf event = Some XP \/
  (scoreTypeOf event = Some TwoP /\ ev_t event = t prev).
Proof.
  unfold merges. rewrite orb_true_iff, andb_true_iff, TeamNum_eqb_eq.
  destruct (scoreTypeOf event) as [[]|]; simpl;
    intuition (discriminate || congruence).
Qed.

(** ** The claims about [processEvents] *)

(** C2.  The score effect of a shown event is read off its text alone:
    whatever came before, the score of the event's side grows by the
    points the specification's phrase table gives the text and the
    score of the other side stays as it was, and the table gives every
    text exactly one score type and one number of points.  The last
    row returned shows the score that results. *)
Theorem score_effect_from_text (events : list Event) (event : Event) :
  hide event = false ->
  exists sType n,
    PointTable (ev_text event) sType n /\
    (forall sType' n',
        PointTable (ev_text event) sType' n' -> sType' = sType /\ n' = n) /\
    scoreTypeOf event = sType /\
    let before := runningScore events in
    let after := runningScore (events ++ [event]) in
    match ev_t event with
    | T0 => fst after = fst before + n /\ snd after = snd before
    | T1 => fst after = fst before /\ snd after = snd before + n
    end /\
    exists row,
      last (processEvents (events ++ [event])) = Some row /\
      score row = after.
Proof.
  intros Hh. exists (scoreTypeOf event), (pointsOf event).
  pose proof (classify_table event) as Ht.
  split; [exact Ht|]. split.
  { intros sType' n' H'. exact (PointTable_functional _ _ _ _ _ H' Ht). }
  split; [reflexivity|].
  destruct (step_shown events event Hh) as [Hscore Hrows].
  cbv zeta. rewrite Hscore, Hrows. split.
  - unfold addPoints. destruct (ev_t event); split; reflexivity.
  - destruct (last (processEvents events)) as [prev|];
      [destruct (merges (scoreTypeOf event) event prev)|];
      eexists; (split; [apply last_snoc|reflexivity]).
Qed.


Lemma merged_step (events : list Event) (event : Event)
  (prev : Row Score) :
  hide event = false ->
  last (processEvents events) = Some prev ->
  scoreTypeOf event = Some XP \/
  (scoreTypeOf event = Some TwoP /\ ev_t event = t prev) ->
  processEvents (events ++ [event])
  = removelast (processEvents events) ++
    [mergedRow prev event (runningScore (events ++ [event]))].
Proof.
  intros Hh Hp Hm. destruct (step_shown events event Hh) as [Hs Hr].
  rewrite Hs, Hr, Hp.
  apply merges_true in Hm. rewrite Hm. reflexivity.
Qed.


(** C10.  A merge touches the score and the text of the previous row
    and nothing else: the rows before it stay as they are, and the
    merged row keeps the side, quarter, time and score type of the
    row it replaces. *)
Theorem merge_keeps_row_identity (events : list Event) (event : Event)
  (prev : Row Score) :
  hide event = false ->
  last (processEvents events) = Some prev ->
  scoreTypeOf event = Some XP \/
  (scoreTypeOf event = Some TwoP /\ ev_t event = t prev) ->
  exists merged : Row Score,
    processEvents (events ++ [event])
    = removelast (processEvents events) ++ [merged] /\
    t merged = t prev /\
    quarter merged = quarter prev /\
    time merged = time prev /\
    scoreType merged = scoreType prev /\
    text merged = mergedText (text prev) (ev_text event) /\
    score merged = runningScore (events ++ [event]).
Proof.
  intros Hh Hp Hm.
  exists (mergedRow prev event (runningScore (events ++ [event]))).
  split; [exact (merged_step events event prev Hh Hp Hm)|].
  repeat split.
Qed.

(** A touchdown followed by its extra point: the one row they make
    reports the touchdown's side, quarter, time and score type. *)
Lemma touchdown_then_extra_point (events : list Event)
  (td xp : Event) :
  hide td = false -> hide xp = false ->
  scoreTypeOf td = Some TD -> scoreTypeOf xp = Some XP ->
  exists row : Row Score,
    last (processEvents (events ++ [td; xp])) = Some row /\
    t row = ev_t td /\ quarter row = ev_quarter td /\
    time row = ev_time td /\ scoreType row = Some TD.
Proof.
  intros Htd Hxp Ktd Kxp.
  destruct (step_shown events td Htd) as [_ Hr].
  assert (Hl : last (processEvents (events ++ [td]))
               = Some (pushedRow td (Some TD)
                         (addPoints (ev_t td) (pointsOf td)
                            (runningScore events)))).
  { rewrite Hr, Ktd.
    destruct (last (processEvents events)) as [p|];
      [unfold merges; simpl|]; apply last_snoc. }
  replace (events ++ [td; xp]) with ((events ++ [td]) ++ [xp])
    by (rewrite <- app_assoc; reflexivity).
  rewrite (merged_step _ xp _ Hxp Hl (or_introl Kxp)), last_snoc.
  eexists; split; [reflexivity|]. repeat split.
Qed.

End Rows.

(** C9 (as amended).  The three events of the concrete case make two
    rows: the rush that scores nothing keeps a row of its own, with
    score [0,0] and no score type; the touchdown and the extra point
    share the second row, side 0, score [7,0], with both phrasings. *)
Theorem concrete_case_rows {Quarter Time : Type}
  (q1 q2 q3 : Quarter) (c1 c2 c3 : Time) :
  processEvents
    [ mkEvent false T0 q1 c1 "rushed for 5 yards";
      mkEvent false T0 q2 c2 "rushed for 2 yards and a touchdown!";
      mkEvent false T0 q3 c3 "made the extra point" ]
  = [ mkRow T0 q1 c1 "rushed for 5 yards" (0, 0) None;
      mkRow T0 q2 c2
        "rushed for 2 yards and a touchdown! (made the extra point)"
        (7, 0) (Some TD) ].
Proof. reflexivity. Qed.

(** C9 as stated fails: the result is not a single row. *)
Lemma concrete_case_not_one_row :
  ~ exists row : Row unit unit Score,
      processEvents concreteCase = [row] /\
      t row = T0 /\ score row = (7, 0).
Proof. intros (row & H & _). discriminate H. Qed.

(** The claims at the events of the concrete case. *)

Lemma score_effect_from_text_witness :
  let event := mkEvent false T1 tt tt "made a 40 yard field goal" in
  hide event = false /\
  exists sType n,
    PointTable (ev_text event) sType n /\
    (forall sType' n',
        PointTable (ev_text event) sType' n' -> sType' = sType /\ n' = n) /\
    scoreTypeOf event = sType /\
    let before := runningScore concreteCase in
    let after := runningScore (concreteCase ++ [event]) in
    match ev_t event with
    | T0 => fst after = fst before + n /\ snd after = snd before
    | T1 => fst after = fst before /\ snd after = snd before + n
    end /\
    exists row,
      last (processEvents (concreteCase ++ [event])) = Some row /\
      score row = after.
Proof.
  intros event. split; [reflexivity|].
  exact (score_effect_from_text concreteCase event eq_refl).
Defined.


Lemma merge_keeps_row_identity_witness :
  let events := take 2 concreteCase in
  let event := mkEvent false T0 tt tt "made the extra point" in
  let prev :=
    mkRow T0 tt tt "rushed for 2 yards and a touchdown!" (6, 0) (Some TD) in
  hide event = false /\
  last (processEvents events) = Some prev /\
  scoreTypeOf event = Some XP /\
  exists merged : Row unit unit Score,
    processEvents (events ++ [event])
    = removelast (processEvents events) ++ [merged] /\
    t merged = t prev /\
    quarter merged = quarter prev /\
    time merged = time prev /\
    scoreType merged = scoreType prev /\
    text merged = mergedText (text prev) (ev_text event) /\
    score merged = runningScore (events ++ [event]).
Proof.
  intros events event prev.
  split; [reflexivity|]. split; [reflexivity|]. split; [reflexivity|].
  exact (merge_keeps_row_identity events event prev eq_refl eq_refl
           (or_introl eq_refl)).
Defined.

(** The phrase matches are case-sensitive, the two-point phrase
    excepted. *)
Example capital_touchdown_scores_nothing :
  @scoreTypeOf unit unit (mkEvent false T0 tt tt "Touchdown by the defense")
  = None.
Proof. reflexivity. Qed.

Example capital_two_point_scores :
  @classify unit unit (mkEvent false T1 tt tt "Two Point conversion") (6, 6)
  = (Some TwoP, (6, 8)).
Proof. reflexivity. Qed.

Example capital_failed_still_scores :
  @classify unit unit
    (mkEvent false T0 tt tt "Two point conversion FAILED") (6, 0)
  = (Some TwoP, (8, 0)).
Proof. reflexivity. Qed.

Example failed_conversion_scores_nothing :
  @classify unit unit
    (mkEvent false T0 tt tt "Two point conversion failed") (6, 0)
  = (Some TwoP, (6, 0)).
Proof. reflexivity. Qed.

End ScoringSummaryFacts.

(* ===================================================================== *)
(** * Facts about [PlayByPlayLogger] *)
(* ===================================================================== *)

Module PlayByPlayLoggerFacts.
Import JsString ArrayFacts PlayByPlayLogger.

Lemma marker_neq (m s : string) :
  includes m failedText = false -> includes m s = true -> s <> failedText.
Proof. intros Hf Hs ->. congruence. Qed.

Ltac find_marker :=
  repeat first [ apply JsStringFacts.includes_here
               | apply JsStringFacts.includes_self
               | apply JsStringFacts.includes_skip ].

Ltac not_failed_by m :=
  apply (marker_neq m); [reflexivity | solve [find_marker]].

Ltac not_failed :=
  first [ not_failed_by " was injured!"%string
        | not_failed_by "Start of "%string
        | not_failed_by "Start of overtime"%string
        | not_failed_by " kicked off"%string
        | not_failed_by " returned the kickoff "%string
        | not_failed_by " punted "%string
        | not_failed_by " returned the punt "%string
        | not_failed_by " the extra point"%string
        | not_failed_by " a "%string
        | not_failed_by " fumbled the ball!"%string
        | not_failed_by " recovered the fumble in the endzone, resulting in a "%string
        | not_failed_by " recovered the fumble for the defense "%string
        | not_failed_by " recovered the fumble for the offense"%string
        | not_failed_by " intercepted the pass and returned it "%string
        | not_failed_by " was sacked by "%string
        | not_failed_by " drops back to pass"%string
        | not_failed_by " completed a pass to "%string
        | not_failed_by "Incomplete pass to "%string
        | not_failed_by " hands the ball off to "%string
        | not_failed_by " was tackled in the endzone for a safety!"%string
        | not_failed_by " rushed for "%string ].

Ltac non_empty :=
  repeat first [ reflexivity
               | apply JsStringFacts.nonEmpty_append_r ].

Section WithOrdinal.
Variable ordinal : option Z -> string.

Ltac by_type :=
  lazymatch goal with
  | |- context [String.eqb ?t ?lit] =>
      let E := fresh "E" in
      destruct (String.eqb t lit) eqn:E;
      [apply String.eqb_eq in E; subst t|]
  end.

Ltac split_var :=
  match goal with
  | |- context [match ?x with _ => _ end] => is_var x; destruct x
  end.

Ltac run_rules :=
  cbv beta iota zeta delta
    [bind require ret throw modify get fst snd truthy absent missing
     existsb isAttempting updateTwoPointConversionState setConversion
     setQuarter descriptionYdsTD showNum andb orb negb
     active playByPlay scoringSummary twoPointConversionState
     twoPointConversionTeam PlayByPlayLogger.quarter].

Ltac render_leaf :=
  repeat split;
  first [ reflexivity | discriminate | solve [non_empty] | not_failed ].

Ltac render_branch :=
  cbn [String.eqb Ascii.eqb Bool.eqb andb orb negb];
  run_rules; repeat (split_var; run_rules);
  render_leaf.

Lemma renderText_spec (type : string) (f : Fields.T)
  (touchdownText : string) (showYdsOnTD : bool) (this : Logger) :
  renderPost type f this
    (renderText ordinal type f touchdownText showYdsOnTD this).
Proof.
  destruct this as [act pbp ss st team q].
  destruct f as [clock lost made names quarter safety t td touchback
                   tag yds].
  unfold renderPost, renderText, violatesContract, requiredFields,
    recordsConversion, nextQuarter.
  cbn [Fields.names Fields.quarter Fields.td Fields.yds Fields.safety
       Fields.touchback Fields.lost Fields.made
       active playByPlay scoringSummary twoPointConversionState
       twoPointConversionTeam PlayByPlayLogger.quarter].
  repeat (by_type; [solve [render_branch]|]).
  render_branch.
Qed.

(** The first statement of [logEvent] never throws; it appends the
    synthesized entry to both logs and moves the conversion state. *)
Lemma track_spec (tag : option Z) (this : Logger) :
  trackTwoPointConversion tag this
  = (Returned tt,
     mkLogger (active this)
       (playByPlay this ++ map TextEntry (synthesized tag this))
       (scoringSummary this ++ synthesized tag this)
       (fst (trackedState tag this)) (snd (trackedState tag this))
       (quarter this)).
Proof.
  destruct this as [act pbp ss st team q].
  unfold trackTwoPointConversion, synthesized, trackedState.
  cbv beta iota zeta delta
    [bind ret modify get fst snd setConversion pushPlayByPlay
     pushScoringSummary active playByPlay scoringSummary
     twoPointConversionState twoPointConversionTeam
     PlayByPlayLogger.quarter].
  destruct tag as [team'|].
  - destruct st as [s|]; cbn [map]; rewrite ?app_nil_r; reflexivity.
  - destruct (isAttempting st); [destruct (lastEntry pbp)|];
      cbn [map]; rewrite ?app_nil_r; reflexivity.
Qed.

Lemma logEvent_unfold (type : string) (f : Fields.T) (this : Logger) :
  logEvent ordinal type f this
  = let tag := Fields.twoPointConversionTeam f in
    let this1 :=
      mkLogger (active this)
        (playByPlay this ++ map TextEntry (synthesized tag this))
        (scoringSummary this ++ synthesized tag this)
        (fst (trackedState tag this)) (snd (trackedState tag this))
        (quarter this) in
    match renderText ordinal type f
            (fst (touchdownWording tag (Fields.t f)))
            (snd (touchdownWording tag (Fields.t f))) this1 with
    | (Returned text, this2) => pushText type f text this2
    | (Thrown msg, this2) => (Thrown msg, this2)
    end.
Proof.
  unfold logEvent, bind. rewrite track_spec.
  destruct (touchdownWording (Fields.twoPointConversionTeam f)
              (Fields.t f)) as [touchdownText showYdsOnTD].
  reflexivity.
Qed.

Lemma logEvent_spec (type : string) (f : Fields.T) (this : Logger) :
  logEventPost type f this (logEvent ordinal type f this).
Proof.
  unfold logEventPost. rewrite logEvent_unfold. cbv zeta.
  set (this1 := mkLogger _ _ _ _ _ _).
  set (touchdownText := fst (touchdownWording _ _)).
  set (showYdsOnTD := snd (touchdownWording _ _)).
  pose proof (renderText_spec type f touchdownText showYdsOnTD this1)
    as Hr.
  destruct (renderText ordinal type f touchdownText showYdsOnTD this1)
    as [[[text|]|msg] this2]; unfold renderPost in Hr.
  - destruct Hr as (Hne & Hnf & Hv & ->). rewrite Hv.
    unfold pushText. rewrite Hne.
    cbv beta iota zeta delta [bind get modify ret fst snd].
    exists [Event.mk text (Fields.t f)
              (Some (formatTime (Fields.clock f)))
              (nextQuarter type f (quarter this))].
    destruct (isScoring type f);
      cbn [playByPlay scoringSummary active twoPointConversionTeam
           twoPointConversionState PlayByPlayLogger.quarter
           pushPlayByPlay pushScoringSummary this1 fst snd];
      rewrite ?map_app, ?app_nil_r, <- ?app_assoc;
      repeat split; eauto.
  - destruct Hr as (-> & Hnone).
    unfold violatesContract. rewrite Hnone.
    exists []. unfold pushText, throw.
    cbn [playByPlay scoringSummary active twoPointConversionTeam
         twoPointConversionState PlayByPlayLogger.quarter this1 fst snd
         isThrown].
    rewrite ?app_nil_r. destruct (isScoring type f);
      rewrite ?app_nil_r; repeat split.
  - destruct Hr as (-> & Hv & _). rewrite Hv.
    exists [].
    cbn [playByPlay scoringSummary active twoPointConversionTeam
         twoPointConversionState PlayByPlayLogger.quarter this1 fst snd
         isThrown].
    rewrite ?app_nil_r. destruct (isScoring type f);
      rewrite ?app_nil_r; repeat split.
Qed.

(** ** Consequences for one call *)

Lemma synthesized_cases (tag : option Z) (this : Logger) :
  synthesized tag this = [] \/
  exists previousEvent,
    tag = None /\
    twoPointConversionState this = Some attempting /\
    lastEntry (playByPlay this) = Some previousEvent /\
    synthesized tag this =
      [Event.mk failedText (twoPointConversionTeam this)
         (entryTime previousEvent) (quarter this)].
Proof.
  unfold synthesized. destruct tag; [now left|].
  destruct (twoPointConversionState this) as [[]|]; simpl;
    try (now left).
  destruct (lastEntry (playByPlay this)) as [p|]; [|now left].
  right. exists p. repeat split.
Qed.

Lemma synthesized_tagged (tag : option Z) (this : Logger) :
  tag <> None -> synthesized tag this = [].
Proof. destruct tag; [reflexivity | congruence]. Qed.

Lemma synthesized_not_attempting (tag : option Z) (this : Logger) :
  twoPointConversionState this <> Some attempting ->
  synthesized tag this = [].
Proof.
  unfold synthesized. destruct tag; [reflexivity|].
  destruct (twoPointConversionState this) as [[]|]; simpl; congruence.
Qed.

Lemma lastEntry_snoc (l : list Entry) (e : Entry) :
  lastEntry (l ++ [e]) = Some e.
Proof. apply lookup_last_snoc. Qed.

(** Calls of [logEvent] keep the last entry stamped with the current
    quarter label, whether they return or throw. *)
Lemma logEvent_quarterStamped (type : string) (f : Fields.T)
  (this : Logger) :
  quarterStamped this ->
  quarterStamped (snd (logEvent ordinal type f this)).
Proof.
  intros Hq. destruct (logEvent_spec type f this)
    as (own & Hp & _ & _ & _ & Hrest).
  unfold quarterStamped. rewrite Hp.
  destruct (violatesContract type f).
  - destruct Hrest as (_ & -> & _ & Hquarter). rewrite Hquarter.
    rewrite app_nil_r.
    destruct (synthesized_cases (Fields.twoPointConversionTeam f) this)
      as [->|(p & _ & _ & _ & ->)].
    + rewrite app_nil_r. exact Hq.
    + cbn [map]. rewrite lastEntry_snoc. intros entry [= <-].
      eexists; split; reflexivity.
  - destruct Hrest as (_ & _ & _ & text & _ & _ & ->).
    rewrite map_app, app_assoc. cbn [map]. rewrite lastEntry_snoc.
    intros entry [= <-]. eexists; split; reflexivity.
Qed.

Lemma logEvents_quarterStamped (calls : list (string * Fields.T))
  (this : Logger) :
  quarterStamped this -> quarterStamped (logEvents ordinal calls this).
Proof.
  revert this; induction calls as [|[type f] calls IH]; intros this Hq;
    [exact Hq|].
  apply IH, logEvent_quarterStamped, Hq.
Qed.

Lemma new_quarterStamped (b : bool) : quarterStamped (new b).
Proof. intros entry H. discriminate H. Qed.

Lemma failures_app (l1 l2 : list Event.T) :
  failures (l1 ++ l2) = failures l1 ++ failures l2.
Proof. apply List.filter_app. Qed.

Lemma failures_own (text : string) t time q :
  text <> failedText -> failures [Event.mk text t time q] = [].
Proof.
  intros H. unfold failures, isFailure. cbn [List.filter Event.text].
  destruct (String.eqb_spec text failedText); [contradiction|reflexivity].
Qed.

(** A tagged call adds no failure entry, and leaves a converted
    attempt converted. *)
Lemma tagged_call_no_failure (type : string) (f : Fields.T)
  (this : Logger) :
  Fields.twoPointConversionTeam f <> None ->
  let this' := snd (logEvent ordinal type f this) in
  failures (scoringSummary this') = failures (scoringSummary this) /\
  (twoPointConversionState this = Some converted ->
   twoPointConversionState this' = Some converted).
Proof.
  intros Htag this'. destruct (logEvent_spec type f this)
    as (own & _ & Hs & _ & _ & Hrest). fold this' in Hs, Hrest.
  rewrite Hs, synthesized_tagged by exact Htag.
  destruct (Fields.twoPointConversionTeam f) as [team|] eqn:Etag;
    [|congruence].
  unfold trackedState in Hrest.
  destruct (violatesContract type f).
  - destruct Hrest as (_ & -> & Hst & _). split.
    + destruct (isScoring type f); cbn [app]; now rewrite app_nil_r.
    + intros Hc. rewrite Hst, Hc. reflexivity.
  - destruct Hrest as (_ & Hst & _ & text & _ & Hnf & ->). split.
    + cbn [app]. destruct (isScoring type f);
        [|now rewrite app_nil_r].
      rewrite failures_app, failures_own by exact Hnf.
      now rewrite app_nil_r.
    + intros Hc. rewrite Hst, Hc. cbn [fst isAttempting].
      rewrite andb_false_r. reflexivity.
Qed.

Lemma tagged_calls_no_failure (calls : list (string * Fields.T))
  (this : Logger) :
  Forall tagged calls ->
  twoPointConversionState this = Some converted ->
  failures (scoringSummary (logEvents ordinal calls this))
  = failures (scoringSummary this) /\
  twoPointConversionState (logEvents ordinal calls this)
  = Some converted.
Proof.
  revert this; induction calls as [|[type f] calls IH];
    intros this Htag Hc; [now split|].
  apply Forall_cons in Htag as [Hcall Htag].
  destruct (tagged_call_no_failure type f this Hcall) as [Hf Hkeep].
  destruct (IH _ Htag (Hkeep Hc)) as [Hf' Hc'].
  cbn [logEvents fold_left] in *. split; [|exact Hc'].
  unfold logEvents in Hf'. cbn [fst snd]. now rewrite Hf'.
Qed.

(** ** The [active] flag plays no part in [logEvent] *)

Ltac flag_branch :=
  cbn [String.eqb Ascii.eqb Bool.eqb andb orb negb];
  run_rules; repeat (split_var; run_rules);
  reflexivity.

Lemma renderText_setActive (type : string) (f : Fields.T)
  (touchdownText : string) (showYdsOnTD : bool) (b : bool)
  (this : Logger) :
  renderText ordinal type f touchdownText showYdsOnTD (setActive b this)
  = (fst (renderText ordinal type f touchdownText showYdsOnTD this),
     setActive b
       (snd (renderText ordinal type f touchdownText showYdsOnTD this))).
Proof.
  destruct this as [act pbp ss st team q].
  destruct f as [clock lost made names quarter safety t td touchback
                   tag yds].
  unfold renderText, setActive.
  cbn [Fields.names Fields.quarter Fields.td Fields.yds Fields.safety
       Fields.touchback Fields.lost Fields.made
       active playByPlay scoringSummary twoPointConversionState
       twoPointConversionTeam PlayByPlayLogger.quarter].
  repeat (by_type; [solve [flag_branch]|]).
  flag_branch.
Qed.

Lemma logEvent_setActive (type : string) (f : Fields.T) (b : bool)
  (this : Logger) :
  logEvent ordinal type f (setActive b this)
  = (fst (logEvent ordinal type f this),
     setActive b (snd (logEvent ordinal type f this))).
Proof.
  rewrite !logEvent_unfold. cbv zeta.
  set (touchdownText := fst (touchdownWording _ _)).
  set (showYdsOnTD := snd (touchdownWording _ _)).
  change (mkLogger (active (setActive b this))
            (playByPlay (setActive b this) ++
             map TextEntry
               (synthesized (Fields.twoPointConversionTeam f)
                  (setActive b this)))
            (scoringSummary (setActive b this) ++
             synthesized (Fields.twoPointConversionTeam f)
               (setActive b this))
            (fst (trackedState (Fields.twoPointConversionTeam f)
                    (setActive b this)))
            (snd (trackedState (Fields.twoPointConversionTeam f)
                    (setActive b this)))
            (quarter (setActive b this)))
    with (setActive b
            (mkLogger (active this)
               (playByPlay this ++
                map TextEntry
                  (synthesized (Fields.twoPointConversionTeam f) this))
               (scoringSummary this ++
                synthesized (Fields.twoPointConversionTeam f) this)
               (fst (trackedState (Fields.twoPointConversionTeam f) this))
               (snd (trackedState (Fields.twoPointConversionTeam f) this))
               (quarter this))).
  rewrite renderText_setActive.
  destruct (renderText ordinal type f touchdownText showYdsOnTD _)
    as [[text|msg] this2]; cbn [fst snd]; [|reflexivity].
  unfold pushText. destruct text as [text|]; [|reflexivity].
  destruct (nonEmpty text); [|reflexivity].
  cbv beta iota zeta delta [bind get modify ret fst snd].
  destruct (isScoring type f); reflexivity.
Qed.

(** ** The claims about [logEvent] *)

Lemma isScoring_iff (type : string) (f : Fields.T) :
  isScoring type f = true <->
  Fields.safety f = Some true \/ Fields.td f = Some true \/
  type = "extraPoint"%string \/
  (Fields.made f = Some true /\ type = "fieldGoal"%string).
Proof.
  unfold isScoring.
  rewrite !orb_true_iff, andb_true_iff, !String.eqb_eq.
  assert (Ht : forall o, truthy o = true <-> o = Some true)
    by (intros [[]|]; simpl; split; congruence).
  rewrite !Ht. tauto.
Qed.

Lemma violatesContract_iff (type : string) (f : Fields.T) :
  violatesContract type f = true <->
  requiredFields type = None \/
  exists fields field,
    requiredFields type = Some fields /\ In field fields /\
    missing f field = true.
Proof.
  unfold violatesContract.
  destruct (requiredFields type) as [fields|].
  - rewrite existsb_exists. split.
    + intros (field & Hin & Hm). right. now exists fields, field.
    + intros [H|(fields' & field & [= <-] & Hin & Hm)];
        [discriminate | now exists field].
  - split; [now left | reflexivity].
Qed.

(** C1 (as amended).  A pending attempt by team X.  A call without
    a conversion tag closes it: when the narration log has a last
    entry, the call appends to both logs one entry with the failure
    text, attributed to X and stamped with the time and quarter of
    that last entry, before the call's own entry, which is never a
    failure entry.  If instead a tagged call of a kind that reports
    touchdowns to the conversion state returns with a true touchdown
    flag, the attempt is converted, that call adds its own entry and
    nothing else to the scoring log, and neither further tagged calls
    nor the untagged call that closes the attempt add a failure
    entry. *)
Theorem conversion_attempt_closed (calls : list (string * Fields.T))
  (b : bool) (X : Z) :
  let this := logEvents ordinal calls (new b) in
  twoPointConversionState this = Some attempting ->
  twoPointConversionTeam this = Some X ->
  (forall type f prev,
      Fields.twoPointConversionTeam f = None ->
      lastEntry (playByPlay this) = Some prev ->
      let this' := snd (logEvent ordinal type f this) in
      exists previousEvent own,
        let failed :=
          Event.mk failedText (Some X) (Event.time previousEvent)
            (Event.quarter previousEvent) in
        prev = TextEntry previousEvent /\
        twoPointConversionState this' = None /\
        failures own = [] /\
        playByPlay this'
        = playByPlay this ++ TextEntry failed :: map TextEntry own /\
        scoringSummary this'
        = scoringSummary this ++
          failed :: (if isScoring type f then own else [])) /\
  (forall type f more type' f',
      Fields.twoPointConversionTeam f <> None ->
      recordsConversion type f = true ->
      violatesContract type f = false ->
      Forall tagged more ->
      Fields.twoPointConversionTeam f' = None ->
      let this1 := snd (logEvent ordinal type f this) in
      let this2 := logEvents ordinal more this1 in
      let this3 := snd (logEvent ordinal type' f' this2) in
      twoPointConversionState this1 = Some converted /\
      (exists e, Event.text e <> failedText /\
                 playByPlay this1 = playByPlay this ++ [TextEntry e] /\
                 scoringSummary this1 = scoringSummary this ++ [e]) /\
      failures (scoringSummary this2) = failures (scoringSummary this) /\
      twoPointConversionState this3 = None /\
      exists own,
        failures own = [] /\
        playByPlay this3 = playByPlay this2 ++ map TextEntry own /\
        scoringSummary this3
        = scoringSummary this2 ++
          (if isScoring type' f' then own else [])).
Proof.
  intros this Hst Hteam. split.
  - intros type f prev Htag Hprev this'.
    assert (Hq : quarterStamped this)
      by apply logEvents_quarterStamped, new_quarterStamped.
    destruct (Hq prev Hprev) as (previousEvent & -> & Hquarter).
    destruct (logEvent_spec type f this)
      as (own & Hp & Hs & _ & _ & Hrest). fold this' in Hp, Hs, Hrest.
    assert (Hsyn : synthesized (Fields.twoPointConversionTeam f) this
                   = [Event.mk failedText (Some X)
                        (Event.time previousEvent)
                        (Event.quarter previousEvent)]).
    { unfold synthesized. rewrite Htag, Hst, Hprev, Hteam, Hquarter.
      reflexivity. }
    rewrite Hsyn in Hp, Hs. rewrite Htag in Hrest.
    exists previousEvent, own. cbv zeta.
    split; [reflexivity|].
    destruct (violatesContract type f).
    + destruct Hrest as (_ & -> & Hstate & _).
      repeat split; try assumption.
    + destruct Hrest as (_ & Hstate & _ & text & _ & Hnf & ->).
      rewrite andb_false_r in Hstate.
      repeat split; try assumption.
      apply failures_own, Hnf.
  - intros type f more type' f' Htag Hrec Hv Hmore Htag' this1 this2 this3.
    destruct (logEvent_spec type f this)
      as (own & Hp & Hs & _ & _ & Hrest). fold this1 in Hp, Hs, Hrest.
    rewrite Hv in Hrest.
    rewrite (synthesized_tagged _ _ Htag) in Hp, Hs.
    destruct Hrest as (_ & Hstate & _ & text & _ & Hnf & Hown).
    assert (Hsc : isScoring type f = true).
    { unfold recordsConversion in Hrec. apply andb_true_iff in Hrec.
      unfold isScoring. destruct Hrec as [-> _].
      now rewrite orb_true_r. }
    rewrite Hsc in Hs. cbn [app] in Hp, Hs.
    assert (Hconv : twoPointConversionState this1 = Some converted).
    { rewrite Hstate, Hrec. unfold trackedState.
      destruct (Fields.twoPointConversionTeam f); [|congruence].
      rewrite Hst. reflexivity. }
    destruct (tagged_calls_no_failure more this1 Hmore Hconv)
      as [Hf2 Hc2]. fold this2 in Hf2, Hc2.
    split; [exact Hconv|]. split.
    { rewrite Hown in Hp, Hs. eexists. split; [|split; eassumption].
      exact Hnf. }
    split.
    { rewrite Hf2, Hs, failures_app, Hown, failures_own by exact Hnf.
      apply app_nil_r. }
    destruct (logEvent_spec type' f' this2)
      as (own' & Hp' & Hs' & _ & _ & Hrest'). fold this3 in Hp', Hs', Hrest'.
    rewrite synthesized_not_attempting in Hp', Hs' by congruence.
    rewrite Htag' in Hrest'. cbn [app] in Hp', Hs'.
    destruct (violatesContract type' f').
    + destruct Hrest' as (_ & -> & Hstate' & _).
      split; [exact Hstate'|]. exists []. now repeat split.
    + destruct Hrest' as (_ & Hstate' & _ & text' & _ & Hnf' & ->).
      rewrite andb_false_r in Hstate'.
      split; [exact Hstate'|]. eexists. split; [|split; eassumption].
      apply failures_own, Hnf'.
Qed.

(** C6 (as amended).  While an attempt by team X is pending, a call
    tagged for a team Y does not start a new attempt: the recorded
    team stays X, the attempt stays pending or becomes converted, the
    call synthesizes nothing, and an untagged call that then closes a
    still pending attempt attributes the failure entry to X. *)
Theorem overlapping_tag_keeps_team (type : string) (f : Fields.T)
  (this : Logger) (X Y : Z) :
  twoPointConversionState this = Some attempting ->
  twoPointConversionTeam this = Some X ->
  Fields.twoPointConversionTeam f = Some Y ->
  let this1 := snd (logEvent ordinal type f this) in
  twoPointConversionTeam this1 = Some X /\
  (twoPointConversionState this1 = Some attempting \/
   twoPointConversionState this1 = Some converted) /\
  failures (scoringSummary this1) = failures (scoringSummary this) /\
  forall type' f' prev,
    twoPointConversionState this1 = Some attempting ->
    Fields.twoPointConversionTeam f' = None ->
    lastEntry (playByPlay this1) = Some prev ->
    exists own,
      failures own = [] /\
      scoringSummary (snd (logEvent ordinal type' f' this1))
      = scoringSummary this1 ++
        Event.mk failedText (Some X) (entryTime prev) (quarter this1)
        :: own.
Proof.
  intros Hst Hteam Htag this1.
  destruct (logEvent_spec type f this)
    as (own & _ & _ & _ & Ht & Hrest). fold this1 in Ht, Hrest.
  rewrite Htag in Ht, Hrest. unfold trackedState in Ht, Hrest.
  rewrite Hst in Ht, Hrest. cbn [fst snd] in Ht, Hrest.
  assert (Hteam1 : twoPointConversionTeam this1 = Some X)
    by (rewrite Ht; exact Hteam).
  split; [exact Hteam1|]. split.
  { destruct (violatesContract type f).
    - left. apply Hrest.
    - destruct Hrest as (_ & -> & _).
      destruct (recordsConversion type f); [right | left]; reflexivity. }
  split.
  { apply tagged_call_no_failure. congruence. }
  intros type' f' prev Hst1 Htag' Hprev.
  destruct (logEvent_spec type' f' this1)
    as (own' & _ & Hs' & _ & _ & Hrest').
  unfold synthesized in Hs'. rewrite Htag', Hst1, Hprev, Hteam1 in Hs'.
  cbn [isAttempting app] in Hs'. rewrite Hs'.
  exists (if isScoring type' f' then own' else []).
  split; [|reflexivity].
  destruct (isScoring type' f'); [|reflexivity].
  destruct (violatesContract type' f').
  - now destruct Hrest' as (_ & -> & _).
  - destruct Hrest' as (_ & _ & _ & text & _ & Hnf & ->).
    apply failures_own, Hnf.
Qed.

(** C4 (as amended).  [logEvent] does not read the [active] flag:
    its outcome and both logs are the same on an active and on an
    inactive logger.  A call that returns appends its entry to the
    narration log, and to the scoring log when the event is
    score-affecting; the flag only decides, later, whether
    [getPlayByPlay] hands the narration log out. *)
Theorem logEvent_ignores_active (type : string) (f : Fields.T)
  (this : Logger) (b : bool) :
  let r := logEvent ordinal type f this in
  let tag := Fields.twoPointConversionTeam f in
  logEvent ordinal type f (setActive b this)
  = (fst r, setActive b (snd r)) /\
  active (snd r) = active this /\
  (fst r = Returned tt ->
   exists e,
     playByPlay (snd r)
     = playByPlay this ++ map TextEntry (synthesized tag this) ++
       [TextEntry e] /\
     scoringSummary (snd r)
     = scoringSummary this ++ synthesized tag this ++
       (if isScoring type f then [e] else [])) /\
  (forall (B : Type) (boxScore : B),
      active this = false -> getPlayByPlay boxScore (snd r) = None).
Proof.
  intros r tag. split; [apply logEvent_setActive|].
  destruct (logEvent_spec type f this)
    as (own & Hp & Hs & Ha & _ & Hrest).
  fold r in Hp, Hs, Ha, Hrest. fold tag in Hp, Hs.
  split; [exact Ha|]. split.
  - intros Hret. destruct (violatesContract type f).
    + destruct Hrest as (Hthrown & _). rewrite Hret in Hthrown.
      discriminate.
    + destruct Hrest as (_ & _ & _ & text & _ & _ & Hown).
      eexists. rewrite Hp, Hs, Hown, map_app. split; reflexivity.
  - intros B boxScore Hoff. unfold getPlayByPlay.
    rewrite Ha, Hoff. reflexivity.
Qed.

(** C5 (as amended).  A call that returns adds its own entry to the
    scoring log exactly when the safety or the touchdown flag is set,
    the type is extraPoint, made or missed, or the type is fieldGoal
    with the made flag set; the entry follows the failure entry that
    the call synthesizes when it closes a pending attempt. *)
Theorem scoring_entry_iff_flagged (type : string) (f : Fields.T)
  (this : Logger) :
  let r := logEvent ordinal type f this in
  let tag := Fields.twoPointConversionTeam f in
  fst r = Returned tt ->
  exists own,
    Event.text own <> failedText /\
    last (playByPlay (snd r)) = Some (TextEntry own) /\
    ((Fields.safety f = Some true \/ Fields.td f = Some true \/
      type = "extraPoint"%string \/
      (Fields.made f = Some true /\ type = "fieldGoal"%string)) ->
     scoringSummary (snd r)
     = scoringSummary this ++ synthesized tag this ++ [own]) /\
    (~ (Fields.safety f = Some true \/ Fields.td f = Some true \/
        type = "extraPoint"%string \/
        (Fields.made f = Some true /\ type = "fieldGoal"%string)) ->
     scoringSummary (snd r)
     = scoringSummary this ++ synthesized tag this).
Proof.
  intros r tag Hret.
  destruct (logEvent_spec type f this)
    as (own & Hp & Hs & _ & _ & Hrest).
  fold r in Hp, Hs, Hrest. fold tag in Hp, Hs.
  destruct (violatesContract type f).
  { destruct Hrest as (Hthrown & _). rewrite Hret in Hthrown.
    discriminate. }
  destruct Hrest as (_ & _ & _ & text & _ & Hnf & Hown).
  exists (Event.mk text (Fields.t f)
            (Some (formatTime (Fields.clock f))) (quarter (snd r))).
  split; [exact Hnf|]. split.
  { rewrite Hp, Hown, map_app, app_assoc. apply last_snoc. }
  rewrite Hs, Hown. split; intros Hsc.
  - apply isScoring_iff in Hsc. rewrite Hsc. reflexivity.
  - destruct (isScoring type f) eqn:E.
    + apply isScoring_iff in E. contradiction.
    + now rewrite app_nil_r.
Qed.

(** C7 (as amended).  [logEvent] throws exactly when no rule matches
    the type or a field that the rule of the type requires is
    missing.  A call that throws without closing a pending attempt
    leaves both logs as they were.  A call that returns appends to
    the narration log exactly one entry of its own, with a text that
    is not empty, after the failure entry it synthesizes when it
    closes a pending attempt. *)
Theorem logEvent_throws_iff_violation (type : string) (f : Fields.T)
  (this : Logger) :
  let r := logEvent ordinal type f this in
  let tag := Fields.twoPointConversionTeam f in
  (isThrown (fst r) = true <->
   requiredFields type = None \/
   exists fields field,
     requiredFields type = Some fields /\ In field fields /\
     missing f field = true) /\
  (isThrown (fst r) = true ->
   tag <> None \/ twoPointConversionState this <> Some attempting ->
   playByPlay (snd r) = playByPlay this /\
   scoringSummary (snd r) = scoringSummary this) /\
  (isThrown (fst r) = false ->
   exists e,
     nonEmpty (Event.text e) = true /\
     Event.text e <> failedText /\
     playByPlay (snd r)
     = playByPlay this ++ map TextEntry (synthesized tag this) ++
       [TextEntry e]).
Proof.
  intros r tag.
  destruct (logEvent_spec type f this)
    as (own & Hp & Hs & _ & _ & Hrest).
  fold r in Hp, Hs, Hrest. fold tag in Hp, Hs.
  rewrite <- violatesContract_iff.
  destruct (violatesContract type f).
  - destruct Hrest as (Hthrown & -> & _). rewrite Hthrown.
    split; [tauto|]. split; [|discriminate].
    intros _ Hno.
    assert (Hsyn : synthesized tag this = []).
    { destruct Hno as [Hno|Hno];
        [apply synthesized_tagged | apply synthesized_not_attempting];
        exact Hno. }
    rewrite Hp, Hs, Hsyn.
    destruct (isScoring type f); cbn [map app];
      now rewrite !app_nil_r.
  - destruct Hrest as (Hret & _ & _ & text & Hne & Hnf & Hown).
    rewrite Hret. cbn [isThrown].
    split; [split; discriminate|]. split; [discriminate|].
    intros _.
    exists (Event.mk text (Fields.t f)
              (Some (formatTime (Fields.clock f))) (quarter (snd r))).
    rewrite Hp, Hown, map_app.
    split; [|split; [|reflexivity]]; assumption.
Qed.

End WithOrdinal.
(** ** The claims on sample calls *)

Lemma conversion_attempt_closed_witness :
  let this := logEvents sampleOrdinal pendingAttempt (new true) in
  let closing := play 15 "K" 1 false None 25 in
  twoPointConversionState this = Some attempting /\
  twoPointConversionTeam this = Some 0 /\
  exists previousEvent own,
    lastEntry (playByPlay this) = Some (TextEntry previousEvent) /\
    scoringSummary (snd (logEvent sampleOrdinal "kickoff" closing this))
    = scoringSummary this ++
      Event.mk failedText (Some 0) (Event.time previousEvent)
        (Event.quarter previousEvent)
      :: (if isScoring "kickoff" closing then own else []).
Proof.
  intros this closing.
  split; [reflexivity|]. split; [reflexivity|].
  destruct (proj1 (conversion_attempt_closed sampleOrdinal pendingAttempt
                     true 0 eq_refl eq_refl)
              "kickoff"%string closing _ eq_refl eq_refl)
    as (previousEvent & own & Hprev & _ & _ & _ & Hs).
  exists previousEvent, own. split; [|exact Hs].
  rewrite <- Hprev. reflexivity.
Defined.

(** C1 as stated fails: a tagged kickoff return with a true touchdown
    flag does not resolve the attempt, and the next untagged call
    synthesizes the failure entry. *)
Lemma tagged_touchdown_not_recorded :
  let attempt := play 1 "B" 0 true (Some 0) 3 in
  let this :=
    logEvents sampleOrdinal
      [ ("run"%string, play 1 "A" 0 true None 2);
        ("kickoffReturn"%string, attempt) ] (new true) in
  Fields.twoPointConversionTeam attempt = Some 0 /\
  Fields.td attempt = Some true /\
  failures
    (scoringSummary
       (snd (logEvent sampleOrdinal "kickoff"
               (play 15 "K" 1 false None 25) this)))
  = [Event.mk failedText (Some 0) (Some "1:00"%string) "Q1"].
Proof. repeat split. Qed.

Lemma overlapping_tag_keeps_team_witness :
  let this := logEvents sampleOrdinal pendingAttempt (new true) in
  let other := play 1 "C" 1 false (Some 1) 0 in
  twoPointConversionState this = Some attempting /\
  twoPointConversionTeam this = Some 0 /\
  Fields.twoPointConversionTeam other = Some 1 /\
  twoPointConversionTeam (snd (logEvent sampleOrdinal "run" other this))
  = Some 0.
Proof.
  intros this other.
  split; [reflexivity|]. split; [reflexivity|]. split; [reflexivity|].
  exact (proj1 (overlapping_tag_keeps_team sampleOrdinal "run" other this
                  0 1 eq_refl eq_refl eq_refl)).
Defined.

(** C6 as stated fails: after a call tagged for team 1 during the
    pending attempt of team 0, the closing call attributes the failure
    entry to team 0. *)
Lemma overlapping_tag_attributes_first_team :
  let this :=
    logEvents sampleOrdinal
      (pendingAttempt ++
       [ ("run"%string, play 1 "C" 1 false (Some 1) 0);
         ("kickoff"%string, play 15 "K" 1 false None 25) ]) (new true) in
  exists failure,
    failures (scoringSummary this) = [failure] /\
    Event.t failure = Some 0 /\ Event.t failure <> Some 1.
Proof. eexists. repeat split. discriminate. Qed.

(** Without a last narration entry nothing is synthesized: a tagged call
    that throws on a new logger starts an attempt and logs nothing, and
    the untagged call after it closes the attempt silently. *)
Example attempt_without_entry_closes_silently :
  let untold :=
    Fields.mk 1 None None None None None (Some 0) (Some false) None
      (Some 0) (Some 1) in
  let r := logEvent sampleOrdinal "run" untold (new true) in
  let r' := logEvent sampleOrdinal "kickoff" (play 15 "K" 1 false None 25)
              (snd r) in
  fst r = Thrown "Missing names" /\
  twoPointConversionState (snd r) = Some attempting /\
  playByPlay (snd r) = [] /\
  twoPointConversionState (snd r') = None /\
  failures (scoringSummary (snd r')) = [].
Proof. repeat split. Qed.

(** [logStat] does test the flag. *)
Example inactive_logger_drops_stats :
  logStat 1 0 7 "pssYds" 12 (new false) = (Returned tt, new false).
Proof. reflexivity. Qed.

(** C4 as stated fails: an inactive logger appends to the narration
    log. *)
Lemma inactive_logger_appends_narration :
  let r := logEvent sampleOrdinal "overtime" (onlyClock 15) (new false) in
  active (new false) = false /\
  fst r = Returned tt /\
  playByPlay (snd r)
  = [TextEntry
       (Event.mk "Start of overtime" None (Some "15:00"%string) "OT")].
Proof. repeat split. Qed.

Lemma scoring_entry_iff_flagged_witness :
  let r := logEvent sampleOrdinal "extraPoint" (kick 1 "K" 0 false)
             (new true) in
  fst r = Returned tt /\
  exists own,
    Event.text own <> failedText /\
    last (playByPlay (snd r)) = Some (TextEntry own) /\
    scoringSummary (snd r) = [own].
Proof.
  intros r. split; [reflexivity|].
  destruct (scoring_entry_iff_flagged sampleOrdinal "extraPoint"
              (kick 1 "K" 0 false) (new true) eq_refl)
    as (own & Hnf & Hlast & Hyes & _).
  exists own. split; [exact Hnf|]. split; [exact Hlast|].
  apply Hyes. right. right. left. reflexivity.
Defined.

(** C5 as stated fails: a missed extra point enters the scoring log. *)
Lemma missed_extra_point_enters_scoring_summary :
  let f := kick 1 "K" 0 false in
  let r := logEvent sampleOrdinal "extraPoint" f (new true) in
  Fields.made f = Some false /\
  fst r = Returned tt /\
  scoringSummary (snd r)
  = [Event.mk "K missed the extra point" (Some 0) (Some "1:00"%string)
       "Q1"].
Proof. repeat split. Qed.

(** C7 as stated fails: a call that throws while it closes a pending
    attempt has already appended the failure entry to both logs. *)
Lemma failing_call_still_logs_failure :
  let this := logEvents sampleOrdinal pendingAttempt (new true) in
  let r := logEvent sampleOrdinal "injury" (onlyClock 1) this in
  let failure :=
    Event.mk failedText (Some 0) (Some "1:00"%string) "Q1" in
  fst r = Thrown "Missing names" /\
  playByPlay (snd r) = playByPlay this ++ [TextEntry failure] /\
  scoringSummary (snd r) = scoringSummary this ++ [failure].
Proof. repeat split. Qed.

End PlayByPlayLoggerFacts.

(* ===================================================================== *)
(** * Facts about rounding to a double *)
(* ===================================================================== *)

Module JsNumberFacts.
Import JsNumber.
Local Open Scope Q_scope.

Lemma two_nonzero : ~ 2 == 0.
Proof. discriminate. Qed.

Lemma pow2_pos (e : Z) : 0 < pow2 e.
Proof. apply Qpower_0_lt. reflexivity. Qed.

Lemma pow2_add (a b : Z) : pow2 (a + b) == pow2 a * pow2 b.
Proof. apply Qpower_plus, two_nonzero. Qed.

Lemma pow2_cancel (e : Z) : pow2 (- e) * pow2 e == 1.
Proof.
  rewrite <- pow2_add. replace (- e + e)%Z with 0%Z by lia. reflexivity.
Qed.

Lemma pow2_Z (n : Z) : (0 <= n)%Z -> pow2 n == inject_Z (2 ^ n).
Proof. intros H. symmetry. exact (Zpower_Qpower 2 n H). Qed.

Lemma pow2_le (a b : Z) : (a <= b)%Z -> pow2 a <= pow2 b.
Proof. intros H. apply Qpower_le_compat_l; [exact H|]. discriminate. Qed.

Lemma pow2_lt_inv (a b : Z) : pow2 a < pow2 b -> (a < b)%Z.
Proof. intros H. apply (Qpower_lt_compat_l_inv 2); [exact H|reflexivity]. Qed.

(** ** Rounding to the nearest integer *)

Lemma roundHalfEven_near (x : Q) :
  (Qfloor x <= roundHalfEven x <= Qfloor x + 1)%Z.
Proof.
  unfold roundHalfEven.
  destruct (x - inject_Z (Qfloor x) ?= 1 # 2); [destruct (Z.even _)| |]; lia.
Qed.

Lemma roundHalfEven_ge (x : Q) (n : Z) :
  inject_Z n <= x -> (n <= roundHalfEven x)%Z.
Proof.
  intros H. pose proof (roundHalfEven_near x).
  apply Qfloor_resp_le in H. rewrite Qfloor_Z in H. lia.
Qed.

Lemma floor_below (x : Q) (n : Z) : x < inject_Z n -> (Qfloor x < n)%Z.
Proof.
  intros H. rewrite Zlt_Qlt.
  eapply Qle_lt_trans; [apply Qfloor_le | exact H].
Qed.

Lemma roundHalfEven_below_half (x : Q) (n : Z) :
  x < inject_Z n - (1 # 2) -> (roundHalfEven x <= n - 1)%Z.
Proof.
  intros H.
  assert (Hf : (Qfloor x < n)%Z) by (apply floor_below; lra).
  destruct (Z.eq_dec (Qfloor x) (n - 1)%Z) as [E|E].
  - unfold roundHalfEven.
    assert (Hlt : x - inject_Z (Qfloor x) < 1 # 2).
    { rewrite E. unfold Z.sub. rewrite inject_Z_plus, inject_Z_opp.
      change (inject_Z 1) with 1. lra. }
    destruct (Qcompare_spec (x - inject_Z (Qfloor x)) (1 # 2)) as [C|C|C];
      [lra|lia|lra].
  - pose proof (roundHalfEven_near x). lia.
Qed.

Lemma roundHalfEven_le (x : Q) (n : Z) :
  x <= inject_Z n -> (roundHalfEven x <= n)%Z.
Proof.
  intros H.
  assert (H' : x < inject_Z (n + 1) - (1 # 2)).
  { rewrite inject_Z_plus. change (inject_Z 1) with 1. lra. }
  apply roundHalfEven_below_half in H'. lia.
Qed.

Lemma roundHalfEven_comp (x y : Q) :
  x == y -> roundHalfEven x = roundHalfEven y.
Proof.
  intros H. unfold roundHalfEven.
  rewrite (Qfloor_comp _ _ H).
  assert (E : x - inject_Z (Qfloor y) == y - inject_Z (Qfloor y))
    by (rewrite H; reflexivity).
  now rewrite (Qcompare_comp _ _ E _ _ (Qeq_refl (1 # 2))).
Qed.

Lemma roundHalfEven_Z (n : Z) : roundHalfEven (inject_Z n) = n.
Proof.
  unfold roundHalfEven. rewrite Qfloor_Z.
  assert (Hlt : inject_Z n - inject_Z n < 1 # 2) by lra.
  destruct (Qcompare_spec (inject_Z n - inject_Z n) (1 # 2)) as [C|C|C];
    [lra|reflexivity|lra].
Qed.

(** ** The leading bit *)

Lemma Qmake_times_den (n : Z) (d : positive) :
  (n # d) * inject_Z (Zpos d) == inject_Z n.
Proof. unfold Qeq, Qmult, inject_Z. simpl. lia. Qed.

Lemma ilog2_spec (x : Q) :
  0 < x -> pow2 (ilog2 x) <= x /\ x < pow2 (ilog2 x + 1).
Proof.
  destruct x as [n d]. intros Hpos.
  assert (Hn : (0 < n)%Z).
  { unfold Qlt in Hpos. simpl in Hpos. lia. }
  unfold ilog2. cbn [Qnum Qden].
  set (a := Z.log2 n). set (b := Z.log2 (Zpos d)).
  destruct (Z.log2_spec n Hn) as [Ha1 Ha2]. fold a in Ha1, Ha2.
  destruct (Z.log2_spec (Zpos d) eq_refl) as [Hb1 Hb2]. fold b in Hb1, Hb2.
  assert (Ha : (0 <= a)%Z) by apply Z.log2_nonneg.
  assert (Hb : (0 <= b)%Z) by apply Z.log2_nonneg.
  assert (Hd : 0 < inject_Z (Zpos d)) by reflexivity.
  pose proof (Qmake_times_den n d) as Hx.
  assert (Hlow : pow2 (a - b - 1) <= n # d).
  { apply (Qmult_le_r _ _ _ Hd). rewrite Hx.
    apply Qle_trans with (pow2 (a - b - 1) * pow2 (b + 1)).
    - apply Qmult_le_l; [apply pow2_pos|].
      rewrite pow2_Z by lia. rewrite <- Zle_Qle. lia.
    - rewrite <- pow2_add. replace (a - b - 1 + (b + 1))%Z with a by lia.
      rewrite pow2_Z by lia. rewrite <- Zle_Qle. exact Ha1. }
  assert (Hhigh : n # d < pow2 (a - b + 1)).
  { apply (Qmult_lt_r _ _ _ Hd). rewrite Hx.
    apply Qlt_le_trans with (pow2 (a - b + 1) * pow2 b).
    - rewrite <- pow2_add. replace (a - b + 1 + b)%Z with (a + 1)%Z by lia.
      rewrite pow2_Z by lia. rewrite <- Zlt_Qlt. exact Ha2.
    - apply Qmult_le_l; [apply pow2_pos|].
      rewrite pow2_Z by lia. rewrite <- Zle_Qle. exact Hb1. }
  destruct (Qle_bool (pow2 (a - b)) (n # d)) eqn:E.
  - apply Qle_bool_iff in E. split; [exact E|exact Hhigh].
  - split.
    + exact Hlow.
    + replace (a - b - 1 + 1)%Z with (a - b)%Z by lia.
      apply Qnot_le_lt. intros C. apply Qle_bool_iff in C. congruence.
Qed.

(** ** Rounding to a double *)

Lemma Qabs_nonneg_eq (x : Q) : 0 <= x -> Qabs x = x.
Proof.
  destruct x as [n d]. unfold Qle, Qabs. cbn [Qnum Qden]. intros H.
  f_equal. apply Z.abs_eq. lia.
Qed.

Lemma nearest_zero (x : Q) : x == 0 -> nearest x = 0.
Proof.
  intros H. unfold nearest. apply Qeq_bool_iff in H. now rewrite H.
Qed.

Lemma nearest_value (x : Q) :
  ~ x == 0 ->
  nearest x
  == inject_Z (roundHalfEven (x * pow2 (- ulpExp x))) * pow2 (ulpExp x).
Proof.
  intros H. unfold nearest. destruct (Qeq_bool x 0) eqn:E.
  - apply Qeq_bool_iff in E. contradiction.
  - apply Qred_correct.
Qed.

Lemma nearest_nonneg (x : Q) : 0 <= x -> 0 <= nearest x.
Proof.
  intros H. destruct (Qeq_dec x 0) as [E|E].
  - rewrite (nearest_zero x E). apply Qle_refl.
  - rewrite (nearest_value x E). apply Qmult_le_0_compat.
    + change 0 with (inject_Z 0). rewrite <- Zle_Qle.
      apply roundHalfEven_ge. change (inject_Z 0) with 0.
      apply Qmult_le_0_compat; [exact H|]. apply Qlt_le_weak, pow2_pos.
    + apply Qlt_le_weak, pow2_pos.
Qed.

(** The scaled value of a positive number stays below [2^53]: the
    significand has at most 53 bits before it is rounded. *)
Lemma scaled_below (x : Q) :
  0 < x -> x * pow2 (- ulpExp x) < inject_Z (2 ^ 53).
Proof.
  intros H. unfold ulpExp.
  rewrite (Qabs_nonneg_eq x) by now apply Qlt_le_weak.
  set (e := Z.max (ilog2 x - 52) (-1074)).
  destruct (ilog2_spec x H) as [_ Hhi].
  assert (Hle : pow2 (ilog2 x + 1) <= pow2 (e + 53)) by (apply pow2_le; lia).
  assert (Hx : x < pow2 (e + 53)) by (eapply Qlt_le_trans; eassumption).
  rewrite <- pow2_Z by lia.
  assert (E : pow2 53 == pow2 (e + 53) * pow2 (- e)).
  { rewrite <- pow2_add. now replace (e + 53 + - e)%Z with 53%Z by lia. }
  rewrite E. apply Qmult_lt_r; [apply pow2_pos|exact Hx].
Qed.

(** A double that is not negative has its fractional part at most
    [1 - 2^-53]: no double lies between that number and 1. *)
Lemma fraction_of_double (x : Q) :
  0 <= x ->
  let c := nearest x in
  0 <= c - inject_Z (Qfloor c) /\
  c - inject_Z (Qfloor c) <= 1 - pow2 (-53).
Proof.
  intros Hx c. split; [pose proof (Qfloor_le c); lra|].
  assert (Hc : 0 <= c) by now apply nearest_nonneg.
  change (pow2 (-53)) with (1 # 9007199254740992).
  destruct (Qeq_dec x 0) as [E|E].
  { unfold c. rewrite (nearest_zero x E). vm_compute. discriminate. }
  assert (Hpos : 0 < x).
  { destruct (Qle_lt_or_eq _ _ Hx) as [H|H]; [exact H|].
    exfalso. apply E. now symmetry. }
  pose proof (nearest_value x E) as Hv. fold c in Hv.
  set (e := ulpExp x) in *.
  set (M := roundHalfEven (x * pow2 (- e))) in *.
  assert (HM : (M <= 2 ^ 53)%Z).
  { apply roundHalfEven_le, Qlt_le_weak, scaled_below, Hpos. }
  assert (Hfl : (0 <= Qfloor c)%Z).
  { change 0%Z with (Qfloor 0). now apply Qfloor_resp_le. }
  destruct (Z_le_gt_dec (-53) e) as [He|He].
  - (* the double is a multiple of 2^-53 *)
    set (J := (M * 2 ^ (e + 53) - Qfloor c * 2 ^ 53)%Z).
    assert (HJ : (c - inject_Z (Qfloor c)) * inject_Z (2 ^ 53) == inject_Z J).
    { assert (Hc53 : c * inject_Z (2 ^ 53) == inject_Z (M * 2 ^ (e + 53))).
      { rewrite Hv, inject_Z_mult. rewrite <- (pow2_Z (e + 53)) by lia.
        rewrite (pow2_add e 53). rewrite (pow2_Z 53) by lia. ring. }
      unfold J. unfold Z.sub at 1.
      rewrite inject_Z_plus, inject_Z_opp, <- Hc53, inject_Z_mult. ring. }
    assert (Hlt : inject_Z J < inject_Z (2 ^ 53)).
    { rewrite <- HJ.
      assert (Hf1 : c - inject_Z (Qfloor c) < 1).
      { pose proof (Qlt_floor c) as L. rewrite inject_Z_plus in L.
        change (inject_Z 1) with 1 in L. lra. }
      apply Qlt_le_trans with (1 * inject_Z (2 ^ 53)).
      - apply Qmult_lt_r; [reflexivity|exact Hf1].
      - rewrite Qmult_1_l. apply Qle_refl. }
    rewrite <- Zlt_Qlt in Hlt.
    assert (HJ' : inject_Z J <= inject_Z (2 ^ 53 - 1))
      by (rewrite <- Zle_Qle; lia).
    rewrite <- HJ in HJ'.
    change (inject_Z (2 ^ 53)) with (9007199254740992 # 1) in HJ'.
    change (inject_Z (2 ^ 53 - 1)) with (9007199254740991 # 1) in HJ'.
    lra.
  - (* the double is at most a half *)
    assert (Hhalf : c <= 1 # 2).
    { rewrite Hv.
      apply Qle_trans with (inject_Z (2 ^ 53) * pow2 e).
      - apply Qmult_le_compat_r; [now rewrite <- Zle_Qle|].
        apply Qlt_le_weak, pow2_pos.
      - rewrite <- pow2_Z by lia. rewrite <- pow2_add.
        change (1 # 2) with (pow2 (-1)). apply pow2_le. lia. }
    assert (Hfl' : inject_Z 0 <= inject_Z (Qfloor c))
      by now rewrite <- Zle_Qle.
    change (inject_Z 0) with 0 in Hfl'. lra.
Qed.

(** The rounded product with 60 stays below 60. *)
Lemma product_below_sixty (f : Q) :
  0 <= f -> f <= 1 - pow2 (-53) ->
  0 <= nearest (f * 60) /\ nearest (f * 60) < 60.
Proof.
  intros Hlo Hhi. split; [apply nearest_nonneg; lra|].
  change (pow2 (-53)) with (1 # 9007199254740992) in Hhi.
  set (y := f * 60) in *.
  destruct (Qeq_dec y 0) as [E|E].
  { rewrite (nearest_zero y E). reflexivity. }
  assert (Hy : 0 < y).
  { assert (0 <= y) by (unfold y; lra).
    destruct (Qle_lt_or_eq 0 y) as [H'|H']; [assumption|exact H'|].
    exfalso. apply E. now symmetry. }
  rewrite (nearest_value y E).
  set (e := ulpExp y).
  assert (He : (e <= -47)%Z).
  { unfold e, ulpExp. rewrite (Qabs_nonneg_eq y) by now apply Qlt_le_weak.
    destruct (ilog2_spec y Hy) as [Hl _].
    assert (Hl6 : pow2 (ilog2 y) < pow2 6).
    { eapply Qle_lt_trans; [exact Hl|].
      change (pow2 6) with (64 # 1). unfold y. lra. }
    apply pow2_lt_inv in Hl6. lia. }
  set (N := (60 * 2 ^ (- e))%Z).
  assert (HN : inject_Z N == 60 * pow2 (- e)).
  { unfold N. rewrite inject_Z_mult, <- pow2_Z by lia. reflexivity. }
  assert (Hstep : (1 # 2) < 60 * (1 # 9007199254740992) * pow2 (- e)).
  { apply Qlt_le_trans
      with (60 * (1 # 9007199254740992) * pow2 47).
    - reflexivity.
    - apply Qmult_le_l; [reflexivity|]. apply pow2_le. lia. }
  assert (Hscaled : y * pow2 (- e) < inject_Z N - (1 # 2)).
  { rewrite HN.
    assert (Hm : y * pow2 (- e)
                 <= (60 - 60 * (1 # 9007199254740992)) * pow2 (- e)).
    { apply Qmult_le_compat_r; [unfold y; lra|].
      apply Qlt_le_weak, pow2_pos. }
    lra. }
  apply roundHalfEven_below_half in Hscaled.
  apply Qle_lt_trans with (inject_Z (N - 1) * pow2 e).
  - apply Qmult_le_compat_r; [now rewrite <- Zle_Qle|].
    apply Qlt_le_weak, pow2_pos.
  - unfold Z.sub. rewrite inject_Z_plus, inject_Z_opp, HN.
    change (inject_Z 1) with 1.
    pose proof (pow2_cancel e) as Hc. pose proof (pow2_pos e) as Hp.
    assert (Hr : (60 * pow2 (- e) + - 1) * pow2 e
                 == 60 * (pow2 (- e) * pow2 e) - pow2 e) by ring.
    rewrite Hr, Hc. lra.
Qed.

Lemma Qred_inject_Z (n : Z) : Qred (inject_Z n) = inject_Z n.
Proof.
  unfold Qred, inject_Z.
  pose proof (Z.ggcd_gcd n 1) as Hg.
  pose proof (Z.ggcd_correct_divisors n 1) as Hd.
  destruct (Z.ggcd n 1) as [g [a b]]. cbn [fst snd] in *.
  rewrite Z.gcd_1_r in Hg. subst g. destruct Hd as [Ha Hb].
  assert (b = 1%Z) by lia. subst b. f_equal. lia.
Qed.

(** Below [2^53] every integer is a double. *)
Lemma nearest_integer (n : Z) :
  (Z.abs n < 2 ^ 53)%Z -> nearest (inject_Z n) = inject_Z n.
Proof.
  intros Hn. destruct (Z.eq_dec n 0%Z) as [->|Hnz]; [reflexivity|].
  unfold nearest.
  destruct (Qeq_bool (inject_Z n) 0) eqn:E.
  { apply Qeq_bool_iff in E. unfold Qeq in E. simpl in E. lia. }
  assert (Hk : ilog2 (Qabs (inject_Z n)) = Z.log2 (Z.abs n)).
  { unfold ilog2, Qabs, inject_Z. cbn [Qnum Qden].
    change (Z.log2 1) with 0%Z. rewrite Z.sub_0_r.
    destruct (Qle_bool _ _) eqn:L; [reflexivity|].
    exfalso. assert (H : pow2 (Z.log2 (Z.abs n)) <= Z.abs n # 1).
    { rewrite pow2_Z by apply Z.log2_nonneg.
      change (Z.abs n # 1) with (inject_Z (Z.abs n)). rewrite <- Zle_Qle.
      apply Z.log2_spec. lia. }
    apply Qle_bool_iff in H. congruence. }
  unfold ulpExp. rewrite Hk.
  set (k := Z.log2 (Z.abs n)).
  assert (Hk0 : (0 <= k)%Z) by apply Z.log2_nonneg.
  assert (Hk52 : (k < 53)%Z).
  { apply Z.log2_lt_pow2; lia. }
  replace (Z.max (k - 52) (-1074)) with (k - 52)%Z by lia.
  assert (Hs : inject_Z n * pow2 (- (k - 52))
               == inject_Z (n * 2 ^ (52 - k))).
  { rewrite inject_Z_mult, <- pow2_Z by lia.
    now replace (- (k - 52))%Z with (52 - k)%Z by lia. }
  rewrite (roundHalfEven_comp _ _ Hs), roundHalfEven_Z.
  assert (Hr : inject_Z (n * 2 ^ (52 - k)) * pow2 (k - 52) == inject_Z n).
  { rewrite inject_Z_mult, <- pow2_Z by lia.
    rewrite <- Qmult_assoc, <- pow2_add.
    replace (52 - k + (k - 52))%Z with 0%Z by lia.
    change (pow2 0) with 1. ring. }
  rewrite (Qred_complete _ _ Hr). apply Qred_inject_Z.
Qed.

Lemma toDouble_integer (n : Z) :
  (Z.abs n < 2 ^ 53)%Z -> toDouble (inject_Z n) = Finite (inject_Z n).
Proof.
  intros Hn. unfold toDouble. rewrite (nearest_integer n Hn).
  destruct (Qle_bool _ _) eqn:L; [|reflexivity].
  exfalso. apply Qle_bool_iff in L.
  assert (H : Qabs (inject_Z n) < pow2 1024).
  { apply Qlt_trans with (inject_Z (2 ^ 53)); [|reflexivity].
    change (Qabs (inject_Z n)) with (inject_Z (Z.abs n)).
    now rewrite <- Zlt_Qlt. }
  apply Qlt_not_le in H. contradiction.
Qed.

Lemma nearestIntegral_safe (n : Z) :
  (Z.abs n < 2 ^ 53)%Z -> nearestIntegral n = Int n.
Proof.
  intros Hn. unfold nearestIntegral. rewrite (toDouble_integer n Hn).
  now rewrite Qfloor_Z.
Qed.

End JsNumberFacts.

(* ===================================================================== *)
(** * More facts about [processEvents] and its view *)
(* ===================================================================== *)

Module ScoringSummaryViewFacts.
Import JsString JsNumber JsNumberFacts ArrayFacts ScoringSummary
  ScoringSummaryFacts ScoringSummaryView.

Section Totals.
Context {Quarter Time : Type}.
Abbreviation Event := (Event Quarter Time).
Abbreviation Row := (Row Quarter Time).

Lemma getCount_app (a b : list Event) :
  getCount (a ++ b) = (getCount a + getCount b)%nat.
Proof. unfold getCount. now rewrite filter_app, length_app. Qed.

Lemma getCount_one (event : Event) :
  getCount [event] = if hide event then 0%nat else 1%nat.
Proof.
  unfold getCount. rewrite filter_cons.
  destruct (decide (hide event = false)) as [H|H]; rewrite ?H; simpl.
  - reflexivity.
  - destruct (hide event); [reflexivity | congruence].
Qed.

Lemma valueBody_hidden (st : Score * list (Row Score)) (event : Event) :
  hide event = true -> valueBody st event = st.
Proof. intros H. unfold valueBody. now rewrite H. Qed.

Lemma fold_valueBody_shown (events : list Event)
  (st : Score * list (Row Score)) :
  fold_left valueBody (shown events) st = fold_left valueBody events st.
Proof.
  revert st; induction events as [|event events IH]; intros st;
    [reflexivity|].
  unfold shown in *. rewrite filter_cons.
  destruct (decide (hide event = false)) as [H|H]; simpl.
  - apply IH.
  - rewrite valueBody_hidden by (destruct (hide event); congruence).
    apply IH.
Qed.

Lemma processEvents_shown (events : list Event) :
  processEvents events = processEvents (shown events).
Proof.
  rewrite !processEvents_by_value.
  unfold valueLoop. now rewrite fold_valueBody_shown.
Qed.

(** Hidden events leave no trace: the rows are those of the shown events
    alone. *)
Theorem hidden_events_leave_no_trace (events : list Event) :
  processEvents events = processEvents (shown events) /\
  runningScore events = runningScore (shown events).
Proof.
  rewrite !processEvents_by_value, !runningScore_by_value.
  unfold valueLoop. now rewrite fold_valueBody_shown.
Qed.

Lemma rows_after_shown (events : list Event) (event : Event) :
  hide event = false ->
  (length (processEvents events) <= length (processEvents (events ++ [event]))
   <= S (length (processEvents events)))%nat /\
  (0 < length (processEvents (events ++ [event])))%nat.
Proof.
  intros Hh. destruct (step_shown events event Hh) as [_ ->].
  destruct (last (processEvents events)) as [prev|] eqn:El.
  - apply last_Some in El as [rows0 ->].
    destruct (merges _ _ _); rewrite ?removelast_last, !length_app;
      simpl; lia.
  - rewrite length_app; simpl; lia.
Qed.

Lemma rows_length_bounds (events : list Event) :
  (length (processEvents events) <= getCount events)%nat /\
  (0 < getCount events -> 0 < length (processEvents events))%nat.
Proof.
  induction events as [|event events [IH1 IH2]] using rev_ind.
  - split; [reflexivity | unfold getCount; simpl; lia].
  - rewrite getCount_app, getCount_one.
    destruct (hide event) eqn:Hh.
    + destruct (step_hidden events event Hh) as [_ ->].
      split; [lia | intros H; apply IH2; lia].
    + destruct (rows_after_shown events event Hh) as [[_ Hle] Hpos].
      split; [lia | intros _; exact Hpos].
Qed.

Lemma rows_empty_iff (events : list Event) :
  processEvents events = [] <-> getCount events = 0%nat.
Proof.
  destruct (rows_length_bounds events) as [Hle Hpos]. split.
  - intros Hnil. rewrite Hnil in Hpos. simpl in Hpos.
    destruct (getCount events); [reflexivity | lia].
  - intros H0. rewrite H0 in Hle.
    destruct (processEvents events); [reflexivity | simpl in Hle; lia].
Qed.

(** There is at least one row as soon as one event is shown, and never
    more rows than shown events; the row list is empty exactly when
    [getCount] is 0. *)
Theorem rows_bounded_by_count (events : list Event) :
  (length (processEvents events) <= getCount events)%nat /\
  (processEvents events = [] <-> getCount events = 0%nat).
Proof.
  split; [apply rows_length_bounds | apply rows_empty_iff].
Qed.

Lemma rows_same_count (events more : list Event) :
  getCount (events ++ more) = getCount events ->
  processEvents (events ++ more) = processEvents events.
Proof.
  rewrite getCount_app. intros Hc.
  assert (Hm : getCount more = 0%nat) by lia. clear Hc.
  rewrite (processEvents_shown (events ++ more)).
  rewrite (processEvents_shown events).
  unfold shown. rewrite filter_app.
  unfold getCount in Hm. apply length_zero_iff_nil in Hm. rewrite Hm.
  now rewrite app_nil_r.
Qed.

Lemma count_zero_hidden (more : list Event) :
  getCount more = 0%nat -> Forall (fun e => hide e = true) more.
Proof.
  induction more as [|e more IH]; intros H; [constructor|].
  change (e :: more) with ([e] ++ more) in H.
  rewrite getCount_app, getCount_one in H.
  destruct (hide e) eqn:Hh; [|lia].
  constructor; [exact Hh | apply IH; lia].
Qed.

(** The comparison the memoized component makes is sound for a log that
    only grows: events appended without a change of [getCount] are all
    hidden, and the rows stay the same. *)
Theorem same_count_same_rows (events more : list Event) :
  getCount (events ++ more) = getCount events ->
  Forall (fun e => hide e = true) more /\
  processEvents (events ++ more) = processEvents events.
Proof.
  intros Hc. split; [|now apply rows_same_count].
  apply count_zero_hidden. rewrite getCount_app in Hc. lia.
Qed.

Lemma sidePoints_app (side : TeamNum) (a b : list Event) :
  sidePoints side (a ++ b) = sidePoints side a + sidePoints side b.
Proof.
  induction a as [|e a IH]; simpl; [lia|].
  fold (sidePoints side (a ++ b)). fold (sidePoints side a).
  destruct (hide e); [exact IH|].
  destruct (TeamNum_eqb (ev_t e) side); lia.
Qed.

Lemma final_score_and_last_row (events : list Event) :
  runningScore events = (sidePoints T0 events, sidePoints T1 events) /\
  (forall row, last (processEvents events) = Some row ->
               score row = runningScore events).
Proof.
  induction events as [|event events [IHs IHl]] using rev_ind.
  - split; [reflexivity | discriminate].
  - rewrite !sidePoints_app. destruct (hide event) eqn:Hh.
    + destruct (step_hidden events event Hh) as [-> ->].
      split; [|exact IHl].
      rewrite IHs. simpl. rewrite Hh. f_equal; lia.
    + destruct (step_shown events event Hh) as [Hs Hr]. split.
      * rewrite Hs, IHs. simpl. rewrite Hh.
        destruct (ev_t event); simpl; f_equal; lia.
      * intros row. rewrite Hr, Hs.
        destruct (last (processEvents events)) as [prev|];
          [destruct (merges _ _ _)|];
          rewrite last_snoc; intros [= <-]; reflexivity.
Qed.

(** The running score is, side by side, the sum of the points of the
    shown events, and the last row always carries it. *)
Theorem last_row_shows_final_score (events : list Event) (row : Row Score) :
  last (processEvents events) = Some row ->
  score row = (sidePoints T0 events, sidePoints T1 events).
Proof.
  intros H. destruct (final_score_and_last_row events) as [Hs Hl].
  now rewrite (Hl row H).
Qed.

Lemma prefix_append_l (m a b : string) :
  String.prefix m a = true -> String.prefix m (a ^^ b) = true.
Proof.
  revert a; induction m as [|x m IH]; intros a H;
    [destruct (a ^^ b); reflexivity|].
  destruct a as [|y a]; [discriminate|].
  cbn [String.append String.prefix] in *.
  destruct (ascii_dec x y); [apply IH, H | discriminate].
Qed.

Lemma prefix_self (m : string) : String.prefix m m = true.
Proof.
  induction m as [|x m IH]; [reflexivity|]. cbn [String.prefix].
  destruct (ascii_dec x x); [exact IH | congruence].
Qed.

Lemma openedBy_more (events : list Event) (event : Event) (row : Row Score) :
  openedBy events row -> openedBy (events ++ [event]) row.
Proof.
  intros (e & Hin & H). exists e. split; [|exact H].
  apply in_or_app. now left.
Qed.

(** Every row is opened by a shown event: the row has that event's side,
    quarter, time and score type, and its text begins with the text of
    that event.  What is merged into a row later only adds to its text
    and moves its score. *)
Theorem rows_opened_by_shown_events (events : list Event) (row : Row Score) :
  In row (processEvents events) ->
  exists e, In e events /\ hide e = false /\
            t row = ev_t e /\ quarter row = ev_quarter e /\
            time row = ev_time e /\ scoreType row = scoreTypeOf e /\
            String.prefix (ev_text e) (text row) = true.
Proof.
  change (In row (processEvents events) -> openedBy events row).
  revert row. induction events as [|event events IH] using rev_ind;
    intros row; [intros Hin; exact (False_ind _ Hin)|].
  destruct (hide event) eqn:Hh.
  - destruct (step_hidden events event Hh) as [_ ->].
    intros Hin. apply openedBy_more, IH, Hin.
  - destruct (step_shown events event Hh) as [_ ->].
    assert (Hpushed : forall s, openedBy (events ++ [event])
                                  (pushedRow event (scoreTypeOf event) s)).
    { intros s. exists event. split; [apply in_or_app; right; now left|].
      repeat split; [exact Hh | apply prefix_self]. }
    destruct (last (processEvents events)) as [prev|] eqn:El.
    + apply last_Some in El as [rows0 El]. rewrite El in *.
      destruct (merges (scoreTypeOf event) event prev).
      * rewrite removelast_last. intros Hin.
        apply in_app_or in Hin as [Hin|[<-|[]]].
        -- apply openedBy_more, IH, in_or_app. now left.
        -- destruct (IH prev) as (e & He & Hhe & Ht & Hq & Hc & Hk & Hp).
           { apply in_or_app. right. now left. }
           exists e. split; [apply in_or_app; now left|].
           repeat split; try assumption.
           cbn [mergedRow text]. unfold mergedText.
           apply prefix_append_l, Hp.
      * intros Hin. apply in_app_or in Hin as [Hin|[<-|[]]].
        -- apply openedBy_more, IH, Hin.
        -- apply Hpushed.
    + intros Hin. apply in_app_or in Hin as [Hin|[<-|[]]].
      * apply openedBy_more, IH, Hin.
      * apply Hpushed.
Qed.

(** Only the first row can have the score type XP: an extra point that
    finds a row before it is merged into that row, and a merge keeps the
    score type of the row. *)
Theorem only_first_row_is_an_extra_point (events : list Event) (i : nat)
  (row : Row Score) :
  processEvents events !! S i = Some row -> scoreType row <> Some XP.
Proof.
  revert i row. induction events as [|event events IH] using rev_ind;
    intros i row; [discriminate|].
  destruct (hide event) eqn:Hh.
  - destruct (step_hidden events event Hh) as [_ ->]. apply IH.
  - destruct (step_shown events event Hh) as [_ ->].
    destruct (last (processEvents events)) as [prev|] eqn:El.
    + apply last_Some in El as [rows0 El]. rewrite El in *.
      destruct (merges (scoreTypeOf event) event prev) eqn:Em.
      * rewrite removelast_last. intros Hrow.
        apply lookup_snoc_Some in Hrow as [[Hlt Hrow]|[Hi <-]].
        -- apply (IH i). now apply lookup_app_l_Some.
        -- cbn [mergedRow scoreType]. apply (IH i).
           rewrite Hi. apply list_lookup_middle. reflexivity.
      * intros Hrow.
        apply lookup_snoc_Some in Hrow as [[Hlt Hrow]|[Hi <-]].
        -- apply (IH i), Hrow.
        -- cbn [pushedRow scoreType]. intros Hxp.
           unfold merges in Em. rewrite Hxp in Em. discriminate.
    + apply last_None in El. rewrite El. cbn [app]. intros Hrow.
      discriminate.
Qed.

End Totals.

(** ** Reading back a printed number *)

Lemma digitsFrom_uint_acc (d : Decimal.uint) (acc : positive) :
  digitsFrom 10 (NilEmpty.string_of_uint d) (Z.pos acc)
  = Z.pos (Pos.of_uint_acc d acc).
Proof.
  revert acc; induction d; intros acc; simpl; try reflexivity;
    match goal with
    | |- context [Z.of_nat (nat_of_ascii ?c)] =>
        let v := eval vm_compute in (Z.of_nat (nat_of_ascii c)) in
        change (Z.of_nat (nat_of_ascii c)) with v
    end;
    match goal with
    | |- digitsFrom 10 _ ?z = _ =>
        match goal with
        | |- _ = Z.pos (Pos.of_uint_acc _ ?p) =>
            replace z with (Z.pos p) by lia
        end
    end; apply IHd.
Qed.

Lemma digitsFrom_uint (d : Decimal.uint) :
  digitsFrom 10 (NilEmpty.string_of_uint d) 0 = Z.of_uint d.
Proof.
  unfold Z.of_uint. induction d; simpl; try reflexivity; try exact IHd;
    apply (digitsFrom_uint_acc d).
Qed.

Lemma parseUnsigned_uint (d : Decimal.uint) :
  d <> Decimal.Nil ->
  parseUnsigned (NilEmpty.string_of_uint d) = Some (Z.of_uint d).
Proof.
  intros Hd. destruct d; try congruence; unfold Z.of_uint;
    try (simpl; f_equal; apply (digitsFrom_uint_acc d)).
  (* a leading 0: the next character is a digit or the end, never x *)
  destruct d; simpl; f_equal;
    first [ reflexivity
          | apply (digitsFrom_uint d)
          | apply (digitsFrom_uint_acc d) ].
Qed.

Lemma trimStart_uint (d : Decimal.uint) :
  trimStart (NilEmpty.string_of_uint d) = NilEmpty.string_of_uint d.
Proof. destruct d; reflexivity. Qed.

(** The digits the template printed for an integer denote it. *)
Lemma parseInteger_showZ (n : Z) : parseInteger (showZ n) = Some n.
Proof.
  unfold showZ. destruct n as [|p|p]; [reflexivity| |].
  - simpl Z.to_int. unfold NilZero.string_of_int, NilZero.string_of_uint.
    pose proof (Unsigned.to_uint_nonnil p) as Hnn.
    assert (Hs : (match Pos.to_uint p with
                  | Decimal.Nil => "0"%string
                  | _ => NilEmpty.string_of_uint (Pos.to_uint p)
                  end) = NilEmpty.string_of_uint (Pos.to_uint p))
      by (destruct (Pos.to_uint p); congruence).
    rewrite Hs. unfold parseInteger. rewrite trimStart_uint.
    assert (Hu := parseUnsigned_uint _ Hnn).
    unfold Z.of_uint in Hu. rewrite DecimalPos.Unsigned.of_to in Hu.
    destruct (Pos.to_uint p); try congruence; exact Hu.
  - simpl Z.to_int. unfold NilZero.string_of_int, NilZero.string_of_uint.
    pose proof (Unsigned.to_uint_nonnil p) as Hnn.
    assert (Hs : (match Pos.to_uint p with
                  | Decimal.Nil => "0"%string
                  | _ => NilEmpty.string_of_uint (Pos.to_uint p)
                  end) = NilEmpty.string_of_uint (Pos.to_uint p))
      by (destruct (Pos.to_uint p); congruence).
    rewrite Hs. unfold parseInteger. cbn [trimStart isWhite].
    change (isWhite "-") with false. cbv iota.
    rewrite (parseUnsigned_uint _ Hnn).
    unfold Z.of_uint. rewrite DecimalPos.Unsigned.of_to. reflexivity.
Qed.

(** [parseInt] reads the printed integer back as the double nearest to
    it, which below [2^53] is the integer itself. *)
Lemma parseInt_showZ (n : Z) : parseInt (showZ n) = Some (nearestIntegral n).
Proof. unfold parseInt. now rewrite parseInteger_showZ. Qed.

Lemma parseInt_showZ_safe (n : Z) :
  Z.abs n < 2 ^ 53 -> parseInt (showZ n) = Some (Int n).
Proof.
  intros Hn. rewrite parseInt_showZ. f_equal.
  now apply nearestIntegral_safe.
Qed.

(** ** The component *)

Section Component.
Context {Time : Type}.
Variable ordinal : option Z -> string.
Variable ordinalInfinity : bool -> string.
Variable getPeriodName : Z -> string.

(** The header for a label Q followed by the digits of an integer: the
    ordinal of the double nearest to the integer, and the period name. *)
Lemma quarterText_numbered (numPeriods n : Z) :
  quarterText ordinal ordinalInfinity getPeriodName numPeriods
    ("Q" ^^ showZ n)
  = match nearestIntegral n with
    | Int m => ordinal (Some m)
    | Inf negative => ordinalInfinity negative
    end ^^ " " ^^ getPeriodName numPeriods.
Proof.
  unfold quarterText. cbn [String.append String.eqb Ascii.eqb Bool.eqb].
  cbn [dropFirstQ Ascii.eqb Bool.eqb]. cbv iota.
  rewrite parseInt_showZ. cbv iota. now destruct (nearestIntegral n).
Qed.

Lemma quarterText_safe (numPeriods n : Z) :
  Z.abs n < 2 ^ 53 ->
  quarterText ordinal ordinalInfinity getPeriodName numPeriods
    ("Q" ^^ showZ n)
  = ordinal (Some n) ^^ " " ^^ getPeriodName numPeriods.
Proof.
  intros Hn. rewrite quarterText_numbered.
  now rewrite (nearestIntegral_safe n Hn).
Qed.

(** A quarter label of the form the logger writes, Q followed by the
    digits of a number below [2^53] in size, is shown as the ordinal of
    that number and the period name; the label OT is shown as Overtime.
    Neither falls through to the question marks.  (From [2^53] on
    [parseInt] rounds what it reads, see [quarterText_numbered].) *)
Theorem quarterText_of_label (numPeriods n : Z) :
  Z.abs n < 2 ^ 53 ->
  quarterText ordinal ordinalInfinity getPeriodName numPeriods
    ("Q" ^^ showZ n)
  = ordinal (Some n) ^^ " " ^^ getPeriodName numPeriods /\
  quarterText ordinal ordinalInfinity getPeriodName numPeriods "OT"
  = "Overtime"%string.
Proof.
  intros Hn. split; [now apply quarterText_safe|reflexivity].
Qed.

Lemma renderEvent_prev (numPeriods : Z) (teams : Team * Team)
  (prevQuarter : option string) (event : Row string Time Score) :
  fst (renderEvent ordinal ordinalInfinity getPeriodName numPeriods teams
         prevQuarter event)
  = Some (quarter event).
Proof.
  unfold renderEvent, sameQuarter. destruct prevQuarter as [q|];
    [|reflexivity].
  destruct (String.eqb_spec (quarter event) q) as [->|]; reflexivity.
Qed.

Lemma renderEvents_lookup (numPeriods : Z) (teams : Team * Team)
  (rows : list (Row string Time Score)) :
  forall (prevQuarter : option string) (i : nat)
         (event : Row string Time Score),
    rows !! i = Some event ->
    renderEvents ordinal ordinalInfinity getPeriodName numPeriods teams
      prevQuarter rows !! i
    = Some (snd (renderEvent ordinal ordinalInfinity getPeriodName
                   numPeriods teams
                   (match i with
                    | O => prevQuarter
                    | S j => quarter <$> rows !! j
                    end) event)).
Proof.
  induction rows as [|first rest IH]; intros prevQuarter i event Hi;
    [discriminate|].
  cbn [renderEvents].
  pose proof (renderEvent_prev numPeriods teams prevQuarter first) as Hp.
  destruct (renderEvent ordinal ordinalInfinity getPeriodName numPeriods
              teams prevQuarter first) as [prevQuarter' row] eqn:E.
  cbn [fst] in Hp. subst prevQuarter'.
  destruct i as [|i].
  - injection Hi as <-. rewrite E. reflexivity.
  - cbn [lookup list_lookup] in Hi |- *.
    etransitivity; [exact (IH (Some (quarter first)) i event Hi)|].
    destruct i as [|i]; reflexivity.
Qed.

Lemma length_renderEvents (numPeriods : Z) (teams : Team * Team)
  (prevQuarter : option string) (rows : list (Row string Time Score)) :
  length (renderEvents ordinal ordinalInfinity getPeriodName numPeriods
            teams prevQuarter rows) = length rows.
Proof.
  revert prevQuarter; induction rows as [|e l IH]; intros pq;
    [reflexivity|].
  cbn [renderEvents].
  destruct (renderEvent ordinal ordinalInfinity getPeriodName numPeriods
              teams pq e)
    as [pq' row].
  cbn [length]. now rewrite IH.
Qed.

(** The table has one row per condensed row, and a row is preceded by a
    quarter header exactly when it is the first row or its quarter
    differs from the quarter of the row before it. *)
Theorem header_iff_quarter_changes (props : Props Time) (i : nat)
  (event : Row string Time Score) :
  processEvents (events props) !! i = Some event ->
  exists rows row,
    render ordinal ordinalInfinity getPeriodName props = Table rows /\
    length rows = length (processEvents (events props)) /\
    rows !! i = Some row /\
    let label :=
      quarterText ordinal ordinalInfinity getPeriodName (numPeriods props)
        (quarter event) in
    match i with
    | O => quarterHeader row = Some label
    | S j =>
        exists before,
          processEvents (events props) !! j = Some before /\
          quarterHeader row
          = if String.eqb (quarter event) (quarter before)
            then None else Some label
    end.
Proof.
  intros Hi. unfold render.
  assert (Hlen : (length (processEvents (events props)) =? 0)%nat = false).
  { apply Nat.eqb_neq. apply lookup_lt_Some in Hi. lia. }
  rewrite Hlen.
  eexists. eexists. split; [reflexivity|].
  split; [apply length_renderEvents|].
  split; [apply renderEvents_lookup, Hi|].
  destruct i as [|j]; [reflexivity|].
  assert (Hj : is_Some (processEvents (events props) !! j)).
  { apply lookup_lt_is_Some. apply lookup_lt_Some in Hi. lia. }
  destruct Hj as [before Hb]. exists before. split; [exact Hb|].
  rewrite Hb. unfold renderEvent, sameQuarter. cbn [fmap option_fmap option_map].
  destruct (String.eqb (quarter event) (quarter before)); reflexivity.
Qed.

(** The component shows the paragraph that says None exactly when no
    event is shown, that is when [getCount] is 0. *)
Theorem placeholder_iff_nothing_shown (props : Props Time) :
  render ordinal ordinalInfinity getPeriodName props = NoEvents <->
  getCount (events props) = 0%nat.
Proof.
  destruct (rows_empty_iff (events props)) as [Hto Hfrom].
  unfold render. split.
  - intros Hv. apply Hto.
    destruct (processEvents (events props)); [reflexivity | discriminate].
  - intros Hc. rewrite (Hfrom Hc). reflexivity.
Qed.

(** The memoized component keeps up with a scoring log that only grows:
    when the box score gains events and nothing else changes, what the
    memo leaves on screen is what a fresh render would show. *)
Theorem memo_sound_for_growing_log (before after : BoxScore Time)
  (more : list (Event string Time)) :
  scoringSummary after = scoringSummary before ++ more ->
  boxTeams after = boxTeams before ->
  boxNumPeriods after = boxNumPeriods before ->
  memoized ordinal ordinalInfinity getPeriodName (propsOf before)
    (render ordinal ordinalInfinity getPeriodName (propsOf before))
    (propsOf after)
  = render ordinal ordinalInfinity getPeriodName (propsOf after).
Proof.
  intros Hs Ht Hn. unfold memoized, propsOf. cbn [count].
  destruct (Nat.eqb_spec (getCount (scoringSummary before))
              (getCount (scoringSummary after))) as [Hc|]; [|reflexivity].
  unfold render. cbn [events numPeriods teams].
  rewrite Hs in Hc |- *. symmetry in Hc.
  rewrite (rows_same_count _ _ Hc), Ht, Hn. reflexivity.
Qed.

End Component.

(** ** On the sample box score *)

Lemma quarterText_of_label_witness :
  Z.abs 3 < 2 ^ 53 /\
  quarterText PlayByPlayLogger.sampleOrdinal sampleOrdinalInfinity
    samplePeriodName 4 "Q3"
  = "3th quarter"%string.
Proof.
  split; [reflexivity|].
  exact (proj1 (quarterText_of_label PlayByPlayLogger.sampleOrdinal
                  sampleOrdinalInfinity samplePeriodName 4 3 eq_refl)).
Defined.

(** From [2^53] on [parseInt] rounds: the label of the odd number
    [2^53 + 1] is read as [2^53], and a number of 400 digits as
    infinity. *)
Example quarterText_rounds :
  quarterText PlayByPlayLogger.sampleOrdinal sampleOrdinalInfinity
    samplePeriodName 4 "Q9007199254740993"
  = "9007199254740992th quarter"%string /\
  quarterText PlayByPlayLogger.sampleOrdinal sampleOrdinalInfinity
    samplePeriodName 4 ("Q" ^^ showZ (10 ^ 400))
  = "Infinityth quarter"%string.
Proof. split; vm_compute; reflexivity. Qed.

Lemma same_count_same_rows_witness :
  let events := take 2 sampleSummary in
  let more := drop 2 (take 3 sampleSummary) in
  getCount (events ++ more) = getCount events /\
  Forall (fun e => hide e = true) more /\
  processEvents (events ++ more) = processEvents events.
Proof.
  intros events more. split; [reflexivity|].
  exact (same_count_same_rows events more eq_refl).
Defined.

Lemma last_row_shows_final_score_witness :
  let row :=
    mkRow T1 "Q2"%string "14:03"%string "L made a 33 yard field goal"
      (7, 3) (Some FG) in
  last (processEvents sampleSummary) = Some row /\
  score row = (sidePoints T0 sampleSummary, sidePoints T1 sampleSummary).
Proof.
  intros row. split; [reflexivity|].
  exact (last_row_shows_final_score sampleSummary row eq_refl).
Defined.

Lemma rows_opened_by_shown_events_witness :
  let row :=
    mkRow T0 "Q1"%string "9:12"%string
      "A rushed for 4 yards and a touchdown! (K made the extra point)"
      (7, 0) (Some TD) in
  In row (processEvents sampleSummary) /\
  exists e, In e sampleSummary /\ hide e = false /\
            t row = ev_t e /\ quarter row = ev_quarter e /\
            time row = ev_time e /\ scoreType row = scoreTypeOf e /\
            String.prefix (ev_text e) (text row) = true.
Proof.
  intros row.
  assert (Hin : In row (processEvents sampleSummary))
    by (left; reflexivity).
  split; [exact Hin|].
  exact (rows_opened_by_shown_events sampleSummary row Hin).
Defined.

Lemma only_first_row_is_an_extra_point_witness :
  let row :=
    mkRow T1 "Q2"%string "14:03"%string "L made a 33 yard field goal"
      (7, 3) (Some FG) in
  processEvents sampleSummary !! 1%nat = Some row /\
  scoreType row <> Some XP.
Proof.
  intros row. split; [reflexivity|].
  exact (only_first_row_is_an_extra_point sampleSummary 0 row eq_refl).
Defined.

Lemma header_iff_quarter_changes_witness :
  let props := mkProps 3 sampleSummary 4 sampleTeams in
  let event :=
    mkRow T1 "Q2"%string "14:03"%string "L made a 33 yard field goal"
      (7, 3) (Some FG) in
  processEvents (events props) !! 1%nat = Some event /\
  exists rows row,
    render PlayByPlayLogger.sampleOrdinal sampleOrdinalInfinity
      samplePeriodName props
    = Table rows /\
    length rows = length (processEvents (events props)) /\
    rows !! 1%nat = Some row.
Proof.
  intros props event. split; [reflexivity|].
  destruct (header_iff_quarter_changes PlayByPlayLogger.sampleOrdinal
              sampleOrdinalInfinity samplePeriodName props 1 event eq_refl)
    as (rows & row & Hv & Hl & Hr & _).
  exists rows, row. repeat split; assumption.
Defined.

Lemma memo_sound_for_growing_log_witness :
  let before := mkBoxScore 1 (take 2 sampleSummary) sampleTeams None in
  let after := mkBoxScore 1 (take 3 sampleSummary) sampleTeams None in
  let more := drop 2 (take 3 sampleSummary) in
  scoringSummary after = scoringSummary before ++ more /\
  boxTeams after = boxTeams before /\
  boxNumPeriods after = boxNumPeriods before /\
  memoized PlayByPlayLogger.sampleOrdinal sampleOrdinalInfinity
    samplePeriodName (propsOf before)
    (render PlayByPlayLogger.sampleOrdinal sampleOrdinalInfinity
       samplePeriodName (propsOf before)) (propsOf after)
  = render PlayByPlayLogger.sampleOrdinal sampleOrdinalInfinity
      samplePeriodName (propsOf after).
Proof.
  intros before after more.
  split; [reflexivity|]. split; [reflexivity|]. split; [reflexivity|].
  exact (memo_sound_for_growing_log PlayByPlayLogger.sampleOrdinal
           sampleOrdinalInfinity samplePeriodName before after more
           eq_refl eq_refl eq_refl).
Defined.

End ScoringSummaryViewFacts.

(* ===================================================================== *)
(** * More facts about [PlayByPlayLogger] *)
(* ===================================================================== *)

Module PlayByPlayCallsFacts.
Import JsString ArrayFacts PlayByPlayLogger PlayByPlayLoggerFacts
  PlayByPlayCalls.

Section WithOrdinal.
Variable ordinal : option Z -> string.

Lemma logStat_cases (qtr t pid : Z) (s : string) (amt : Z) (this : Logger) :
  logStat qtr t pid s amt this
  = (Returned tt,
     if active this
     then pushPlayByPlay (StatEntry (quarter this) t pid s amt) this
     else this).
Proof.
  unfold logStat, bind, get, ret, modify. destruct (active this); reflexivity.
Qed.

(** One call extends both logs, the scoring log by a subsequence of
    what it adds to the narration log, and keeps the flag. *)
Lemma call_extends (c : Call) (this : Logger) :
  exists (more : list Entry) (moreScoring : list Event.T),
    playByPlay (snd (call ordinal c this)) = playByPlay this ++ more /\
    scoringSummary (snd (call ordinal c this))
    = scoringSummary this ++ moreScoring /\
    map TextEntry moreScoring `sublist_of` more /\
    active (snd (call ordinal c this)) = active this.
Proof.
  destruct c as [type f|qtr t pid s amt]; cbn [call].
  - destruct (logEvent_spec ordinal type f this)
      as (own & Hp & Hs & Ha & _ & _).
    eexists. eexists. split; [exact Hp|]. split; [exact Hs|].
    split; [|exact Ha].
    rewrite !map_app. apply sublist_app; [reflexivity|].
    destruct (isScoring type f); [reflexivity | apply sublist_nil_l].
  - rewrite logStat_cases. cbn [snd]. destruct (active this) eqn:Ea.
    + exists [StatEntry (quarter this) t pid s amt], [].
      cbn [pushPlayByPlay playByPlay scoringSummary active map].
      rewrite app_nil_r. repeat split; [apply sublist_nil_l | exact Ea].
    + exists [], []. rewrite !app_nil_r.
      repeat split; [apply sublist_nil_l | exact Ea].
Qed.

Lemma runCalls_extends (calls : list Call) (this : Logger) :
  exists (more : list Entry) (moreScoring : list Event.T),
    playByPlay (runCalls ordinal calls this) = playByPlay this ++ more /\
    scoringSummary (runCalls ordinal calls this)
    = scoringSummary this ++ moreScoring /\
    map TextEntry moreScoring `sublist_of` more /\
    active (runCalls ordinal calls this) = active this.
Proof.
  revert this; induction calls as [|c calls IH]; intros this.
  - exists [], []. rewrite !app_nil_r. repeat split. apply sublist_nil_l.
  - cbn [runCalls fold_left].
    destruct (call_extends c this) as (m1 & s1 & Hp1 & Hs1 & Hsub1 & Ha1).
    destruct (IH (snd (call ordinal c this)))
      as (m2 & s2 & Hp2 & Hs2 & Hsub2 & Ha2).
    exists (m1 ++ m2), (s1 ++ s2). unfold runCalls in *.
    rewrite Hp2, Hs2, Hp1, Hs1, Ha2, Ha1, <- !app_assoc, map_app.
    repeat split. apply sublist_app; assumption.
Qed.

(** The logs only grow: no call of [logEvent] or [logStat], returning or
    throwing, removes or changes an entry that either log already
    holds. *)
Theorem logs_only_grow (calls : list Call) (this : Logger) :
  playByPlay this `prefix_of` playByPlay (runCalls ordinal calls this) /\
  scoringSummary this
    `prefix_of` scoringSummary (runCalls ordinal calls this).
Proof.
  destruct (runCalls_extends calls this) as (m & s & Hp & Hs & _).
  rewrite Hp, Hs. split; apply prefix_app_r; reflexivity.
Qed.

(** On a logger that started empty, the scoring log is a subsequence of
    the narration log: every scoring entry is a narration entry, in the
    same order. *)
Theorem scoring_log_within_narration (calls : list Call) (b : bool) :
  map TextEntry (scoringSummary (runCalls ordinal calls (new b)))
    `sublist_of` playByPlay (runCalls ordinal calls (new b)).
Proof.
  destruct (runCalls_extends calls (new b)) as (m & s & Hp & Hs & Hsub & _).
  rewrite Hp, Hs. exact Hsub.
Qed.

(** [getPlayByPlay] depends on how the logger was constructed, not on
    what was logged: constructed inactive it returns nothing after any
    run of calls, constructed active it returns the init element
    followed by the whole narration log. *)
Theorem getPlayByPlay_after_run (calls : list Call) (b : bool)
  (B : Type) (boxScore : B) :
  getPlayByPlay boxScore (runCalls ordinal calls (new b))
  = if b
    then Some (InitEntry B boxScore ::
               map (LogEntry B)
                 (playByPlay (runCalls ordinal calls (new b))))
    else None.
Proof.
  destruct (runCalls_extends calls (new b)) as (_ & _ & _ & _ & _ & Ha).
  unfold getPlayByPlay. rewrite Ha. destruct b; reflexivity.
Qed.

Lemma logEvent_teamTracksState (type : string) (f : Fields.T)
  (this : Logger) :
  teamTracksState this ->
  teamTracksState (snd (logEvent ordinal type f this)).
Proof.
  unfold teamTracksState. intros Hinv.
  destruct (logEvent_spec ordinal type f this)
    as (own & _ & _ & _ & Ht & Hrest).
  assert (Hst : twoPointConversionState (snd (logEvent ordinal type f this))
                = fst (trackedState (Fields.twoPointConversionTeam f) this)
                \/ (fst (trackedState (Fields.twoPointConversionTeam f) this)
                    = Some attempting /\
                    twoPointConversionState
                      (snd (logEvent ordinal type f this)) = Some converted)).
  { destruct (violatesContract type f).
    - left. apply Hrest.
    - destruct Hrest as (_ & -> & _).
      destruct (recordsConversion type f); [|now left].
      destruct (fst (trackedState _ this)) as [[]|]; cbn;
        [right; now split | now left | now left]. }
  rewrite Ht. clear Ht Hrest. unfold trackedState in *.
  destruct (Fields.twoPointConversionTeam f) as [team|];
    [destruct (twoPointConversionState this) as [s|] eqn:Es|];
    cbn [fst snd] in *;
    destruct Hst as [->|[Hatt ->]]; split; intros H; try congruence.
  all: apply Hinv in H; congruence.
Qed.

(** The conversion team is recorded exactly while a conversion state
    is: after any run of calls on a new logger, the state is unset if
    and only if the team is unset. *)
Theorem conversion_team_tracks_state (calls : list Call) (b : bool) :
  let this := runCalls ordinal calls (new b) in
  twoPointConversionState this = None <-> twoPointConversionTeam this = None.
Proof.
  cbv zeta. change (teamTracksState (runCalls ordinal calls (new b))).
  assert (H0 : teamTracksState (new b)) by (split; reflexivity).
  revert H0. generalize (new b) as this.
  induction calls as [|c calls IH]; intros this Hinv; [exact Hinv|].
  cbn [runCalls fold_left]. apply IH.
  destruct c as [type f|qtr t pid s amt]; cbn [call].
  - apply logEvent_teamTracksState, Hinv.
  - rewrite logStat_cases. cbn [snd]. destruct (active this); exact Hinv.
Qed.

Lemma nextQuarter_cases (type : string) (f : Fields.T) (q : string) :
  nextQuarter type f q = q \/
  (type = "overtime"%string /\ nextQuarter type f q = "OT"%string) \/
  (exists n, type = "quarter"%string /\ Fields.quarter f = Some n /\
             nextQuarter type f q = "Q" ^^ showZ n).
Proof.
  unfold nextQuarter.
  destruct (String.eqb_spec type "quarter") as [->|_].
  - destruct (Fields.quarter f) as [n|]; [|now left].
    right. right. now exists n.
  - destruct (String.eqb_spec type "overtime") as [->|_];
      [right; left; now split | now left].
Qed.

(** The quarter label moves only at a [quarter] or [overtime] call that
    returns: to Q and the number, or to OT.  A call of any other type,
    and any call that throws, leaves the label as it was. *)
Theorem label_moves_only_at_quarter_calls (type : string) (f : Fields.T)
  (this : Logger) :
  let r := logEvent ordinal type f this in
  (isThrown (fst r) = true -> quarter (snd r) = quarter this) /\
  (type <> "quarter"%string -> type <> "overtime"%string ->
   quarter (snd r) = quarter this) /\
  (fst r = Returned tt -> type = "overtime"%string ->
   quarter (snd r) = "OT"%string) /\
  (forall n, fst r = Returned tt -> type = "quarter"%string ->
             Fields.quarter f = Some n ->
             quarter (snd r) = "Q" ^^ showZ n).
Proof.
  cbv zeta.
  destruct (logEvent_spec ordinal type f this)
    as (own & _ & _ & _ & _ & Hrest).
  destruct (violatesContract type f).
  - destruct Hrest as (Hthrown & _ & _ & Hq).
    repeat split; try (intros; exact Hq);
      intros; destruct (fst (logEvent ordinal type f this)); discriminate.
  - destruct Hrest as (Hret & _ & Hq & _). rewrite Hret, Hq.
    split; [discriminate|]. split; [|split].
    + intros H1 H2.
      destruct (nextQuarter_cases type f (quarter this))
        as [H|[[H _]|(n & H & _)]]; congruence.
    + intros _ ->. reflexivity.
    + intros n _ -> Hn. unfold nextQuarter. cbn. now rewrite Hn.
Qed.



(** A stat logged on an active logger comes between a pending attempt
    and the call that closes it: the synthesized failure entry then has
    no time, because the entry before it is a stat object.  On an
    inactive logger [logStat] does nothing and the failure entry is
    what it would be without the stat. *)
Theorem stat_before_closing_call (qtr t pid : Z) (s : string) (amt : Z)
  (type : string) (f : Fields.T) (this : Logger) :
  twoPointConversionState this = Some attempting ->
  Fields.twoPointConversionTeam f = None ->
  let this1 := snd (logStat qtr t pid s amt this) in
  let after := snd (logEvent ordinal type f this1) in
  (active this = true ->
   exists own,
     failures own = [] /\
     scoringSummary after
     = scoringSummary this ++
       Event.mk failedText (twoPointConversionTeam this) None (quarter this)
       :: own) /\
  (active this = false ->
   after = snd (logEvent ordinal type f this)).
Proof.
  intros Hst Htag this1 after. unfold after, this1.
  rewrite logStat_cases. cbn [snd]. split; intros Ha; rewrite Ha;
    [|reflexivity].
  set (this' := pushPlayByPlay _ this).
  destruct (logEvent_spec ordinal type f this')
    as (own & _ & Hs & _ & _ & Hrest).
  assert (Hsyn : synthesized (Fields.twoPointConversionTeam f) this'
                 = [Event.mk failedText (twoPointConversionTeam this) None
                      (quarter this)]).
  { unfold synthesized. rewrite Htag. unfold this'.
    cbn [pushPlayByPlay twoPointConversionState playByPlay
         twoPointConversionTeam PlayByPlayLogger.quarter].
    rewrite Hst, lastEntry_snoc. reflexivity. }
  rewrite Hsyn in Hs. rewrite Hs.
  exists (if isScoring type f then own else []).
  split; [|reflexivity].
  destruct (isScoring type f); [|reflexivity].
  destruct (violatesContract type f).
  - now destruct Hrest as (_ & -> & _).
  - destruct Hrest as (_ & _ & _ & text & _ & Hnf & ->).
    apply failures_own, Hnf.
Qed.

(** ** The text of particular calls *)

Lemma logEvent_rendered (type : string) (f : Fields.T) (this this2 : Logger)
  (text : string) :
  renderText ordinal type f
    (fst (touchdownWording (Fields.twoPointConversionTeam f) (Fields.t f)))
    (snd (touchdownWording (Fields.twoPointConversionTeam f) (Fields.t f)))
    (tracked f this) = (Returned (Some text), this2) ->
  nonEmpty text = true ->
  let e := Event.mk text (Fields.t f) (Some (formatTime (Fields.clock f)))
             (quarter this2) in
  let r := logEvent ordinal type f this in
  fst r = Returned tt /\
  last (playByPlay (snd r)) = Some (TextEntry e) /\
  (isScoring type f = true -> last (scoringSummary (snd r)) = Some e).
Proof.
  intros Hr Hne e r. unfold r. rewrite logEvent_unfold. cbv zeta.
  fold (tracked f this). rewrite Hr. unfold pushText. rewrite Hne.
  cbv beta iota zeta delta [bind get modify ret fst snd].
  fold e. destruct (isScoring type f);
    cbn [pushPlayByPlay pushScoringSummary playByPlay scoringSummary];
    rewrite ?last_snoc; repeat split; congruence.
Qed.

(** The narration of a two-point conversion that is run in.  When the
    runner's team is the team that attempts the conversion the yards
    are left out; when it is the other team the text gives the yards
    and two points.  The entry goes to both logs. *)
Theorem conversion_run_text (f : Fields.T) (names : list string)
  (team : Z) (this : Logger) :
  Fields.names f = Some names ->
  Fields.td f = Some true ->
  truthy (Fields.safety f) = false ->
  Fields.twoPointConversionTeam f = Some team ->
  let r := logEvent ordinal "run" f this in
  exists e,
    fst r = Returned tt /\
    last (playByPlay (snd r)) = Some (TextEntry e) /\
    last (scoringSummary (snd r)) = Some e /\
    Event.text e
    = if bool_decide (Some team = Fields.t f)
      then nameAt names 0 ^^ " rushed for a two point conversion!"
      else nameAt names 0 ^^ " rushed for " ^^ showNum (Fields.yds f) ^^
           " yards and two points!".
Proof.
  intros Hn Htd Hsafe Htag r.
  set (text := if bool_decide (Some team = Fields.t f)
               then nameAt names 0 ^^ " rushed for a two point conversion!"
               else nameAt names 0 ^^ " rushed for " ^^
                    showNum (Fields.yds f) ^^ " yards and two points!").
  assert (Hne : nonEmpty text = true).
  { unfold text. destruct (bool_decide _);
      apply JsStringFacts.nonEmpty_append_r; reflexivity. }
  assert (Hr : exists this2,
             renderText ordinal "run" f
               (fst (touchdownWording (Fields.twoPointConversionTeam f)
                       (Fields.t f)))
               (snd (touchdownWording (Fields.twoPointConversionTeam f)
                       (Fields.t f)))
               (tracked f this) = (Returned (Some text), this2)).
  { unfold renderText.
    cbn [String.eqb Ascii.eqb Bool.eqb]. cbv iota.
    rewrite Hn, Htd, Hsafe, Htag. unfold touchdownWording, text.
    cbv beta iota zeta delta [bind require ret fst snd truthy
                              updateTwoPointConversionState get modify].
    destruct (bool_decide (Some team = Fields.t f));
      cbv beta iota zeta delta [fst snd descriptionYdsTD andb];
      destruct (isAttempting _); eexists; reflexivity. }
  destruct Hr as [this2 Hr].
  destruct (logEvent_rendered "run" f this this2 text Hr Hne)
    as (Hret & Hp & Hs).
  eexists. split; [exact Hret|]. split; [exact Hp|].
  split; [|reflexivity].
  apply Hs. unfold isScoring. rewrite Htd, Hsafe. reflexivity.
Qed.

End WithOrdinal.

(** ** On sample calls *)

Lemma stat_before_closing_call_witness :
  let this := logEvents sampleOrdinal pendingAttempt (new true) in
  let closing := play 15 "K" 1 false None 25 in
  let this1 := snd (logStat 1 0 7 "rusYds" 1 this) in
  twoPointConversionState this = Some attempting /\
  Fields.twoPointConversionTeam closing = None /\
  active this = true /\
  exists own,
    failures own = [] /\
    scoringSummary (snd (logEvent sampleOrdinal "kickoff" closing this1))
    = scoringSummary this ++
      Event.mk failedText (twoPointConversionTeam this) None (quarter this)
      :: own.
Proof.
  intros this closing this1.
  split; [reflexivity|]. split; [reflexivity|]. split; [reflexivity|].
  exact (proj1 (stat_before_closing_call sampleOrdinal 1 0 7 "rusYds" 1
                  "kickoff" closing this eq_refl eq_refl) eq_refl).
Defined.

Lemma conversion_run_text_witness :
  let f := play 1 "B" 0 true (Some 0) 2 in
  Fields.names f = Some ["B"%string] /\
  Fields.td f = Some true /\
  truthy (Fields.safety f) = false /\
  Fields.twoPointConversionTeam f = Some 0 /\
  exists e,
    last (scoringSummary (snd (logEvent sampleOrdinal "run" f (new false))))
    = Some e /\
    Event.text e = "B rushed for a two point conversion!"%string.
Proof.
  intros f.
  split; [reflexivity|]. split; [reflexivity|]. split; [reflexivity|].
  split; [reflexivity|].
  destruct (conversion_run_text sampleOrdinal f ["B"%string] 0 (new false)
              eq_refl eq_refl eq_refl eq_refl)
    as (e & _ & _ & Hs & Ht).
  exists e. split; [exact Hs | exact Ht].
Defined.

End PlayByPlayCallsFacts.

(* ===================================================================== *)
(** * From the logger's texts to the box score's points *)
(* ===================================================================== *)

Module ProducerConsumerFacts.
Import JsString JsNumber JsStringChars ScoringSummary ScoringSummaryFacts
  ScoringSummaryView ScoringSummaryViewFacts
  PlayByPlayLogger PlayByPlayLoggerFacts PlayByPlayCalls
  PlayByPlayCallsFacts.

Lemma prefix_app_sep (m a b : string) (c : ascii) :
  occurs c m = false ->
  String.prefix m (a ^^ String c b) = String.prefix m a.
Proof.
  revert a; induction m as [|x m IH]; intros a Hc.
  - now destruct a.
  - cbn [occurs] in Hc. apply orb_false_iff in Hc as [Hx Hm].
    destruct a as [|y a]; cbn [String.append String.prefix].
    + destruct (ascii_dec x c) as [->|]; [|reflexivity].
      rewrite Ascii.eqb_refl in Hx. discriminate.
    + destruct (ascii_dec x y); [apply IH, Hm | reflexivity].
Qed.

(** A phrase cannot straddle a character that does not occur in it. *)
Lemma includes_app_sep (m a b : string) (c : ascii) :
  occurs c m = false ->
  includes m (a ^^ String c b) = includes m a || includes m (String c b).
Proof.
  intros Hc. induction a as [|y a IH].
  - destruct m as [|x m]; [reflexivity|].
    cbn [String.append]. cbn [includes String.prefix]. reflexivity.
  - cbn [String.append].
    change (includes m (String y (a ^^ String c b)))
      with (String.prefix m (String y (a ^^ String c b)) ||
            includes m (a ^^ String c b)).
    change (includes m (String y a))
      with (String.prefix m (String y a) || includes m a).
    rewrite IH.
    change (String y (a ^^ String c b)) with (String y a ^^ String c b).
    rewrite (prefix_app_sep m (String y a) b c Hc).
    now rewrite orb_assoc.
Qed.

Section WithOrdinal.
Variable ordinal : option Z -> string.
Variable ordinalInfinity : bool -> string.

(** An extra point, as the logger words it, is read by [processEvents]
    as an extra point whoever kicked it.  A made one earns the point.  A
    missed one earns the point too when the kicker's name contains the
    word made, and nothing otherwise. *)
Theorem extra_point_reads_back {Quarter Time : Type} (f : Fields.T)
  (names : list string) (this : Logger)
  (side : TeamNum) (q : Quarter) (c : Time) :
  Fields.names f = Some names ->
  let r := logEvent ordinal "extraPoint" f this in
  exists e,
    fst r = Returned tt /\
    last (scoringSummary (snd r)) = Some e /\
    let event := mkEvent false side q c (Event.text e) in
    scoreTypeOf event = Some XP /\
    pointsOf event
    = if truthy (Fields.made f) || includes "made" (nameAt names 0)
      then 1 else 0.
Proof.
  intros Hn r.
  set (text := nameAt names 0 ^^ " " ^^
               (if truthy (Fields.made f) then "made" else "missed") ^^
               " the extra point").
  assert (Hne : nonEmpty text = true).
  { apply JsStringFacts.nonEmpty_append_r. reflexivity. }
  assert (Hr : renderText ordinal "extraPoint" f
                 (fst (touchdownWording (Fields.twoPointConversionTeam f)
                         (Fields.t f)))
                 (snd (touchdownWording (Fields.twoPointConversionTeam f)
                         (Fields.t f)))
                 (tracked f this) = (Returned (Some text), tracked f this)).
  { unfold renderText. cbn [String.eqb Ascii.eqb Bool.eqb]. cbv iota.
    rewrite Hn. reflexivity. }
  destruct (logEvent_rendered ordinal "extraPoint" f this _ text Hr Hne)
    as (Hret & _ & Hs).
  eexists. split; [exact Hret|]. split.
  { apply Hs, isScoring_iff. right. right. left. reflexivity. }
  cbn [Event.text].
  assert (Hxp : includes "extra point" text = true).
  { unfold text. do 3 apply JsStringFacts.includes_skip. reflexivity. }
  assert (Hmade : includes "made" text
                  = truthy (Fields.made f) || includes "made" (nameAt names 0)).
  { unfold text. destruct (truthy (Fields.made f)).
    - cbn [orb]. do 2 apply JsStringFacts.includes_skip.
      apply JsStringFacts.includes_here.
    - change (" " ^^ "missed" ^^ " the extra point")
        with (String " " "missed the extra point").
      rewrite includes_app_sep by reflexivity.
      change (includes "made" (String " " "missed the extra point"))
        with false.
      now rewrite orb_false_r. }
  unfold scoreTypeOf, pointsOf, classify. cbn [ev_text ev_t].
  rewrite Hxp, Hmade.
  destruct (truthy (Fields.made f) || includes "made" (nameAt names 0));
    destruct side; split; reflexivity.
Qed.


End WithOrdinal.

(** ** On sample calls *)

Lemma extra_point_reads_back_witness :
  let f := kick 1 "Jermade" 0 false in
  Fields.names f = Some ["Jermade"%string] /\
  exists e,
    last (scoringSummary
            (snd (logEvent sampleOrdinal "extraPoint" f (new true))))
    = Some e /\
    pointsOf (mkEvent false T0 tt tt (Event.text e)) = 1.
Proof.
  intros f. split; [reflexivity|].
  destruct (extra_point_reads_back sampleOrdinal f ["Jermade"%string]
              (new true) T0 tt tt eq_refl)
    as (e & _ & Hs & _ & Hp).
  exists e. split; [exact Hs | exact Hp].
Defined.


End ProducerConsumerFacts.

(* ===================================================================== *)
(** * Facts about [autoSign] *)
(* ===================================================================== *)

Module AutoSignFacts.
Import AutoSign.

Lemma findSigning_first (g : Settings) (payroll num : Z)
  (rest : list Player) :
  forall (i k : nat) (p : Player),
    findSigning g payroll num i rest = Some (k, p) ->
    exists j : nat,
      k = (i + j)%nat /\ rest !! j = Some p /\
      canSign g payroll num p = true /\
      forall (j' : nat) (p' : Player),
        (j' < j)%nat -> rest !! j' = Some p' ->
        canSign g payroll num p' = false.
Proof.
  induction rest as [|q rest IH]; intros i k p H; [discriminate|].
  cbn [findSigning] in H.
  destruct (canSign g payroll num q) eqn:Eq.
  - injection H as <- <-. exists 0%nat. repeat split; [lia|exact Eq|].
    intros j' p' Hlt. lia.
  - destruct (IH (S i) k p H) as (j & -> & Hj & Hc & Hbefore).
    exists (S j). repeat split; [lia|exact Hj|exact Hc|].
    intros [|j'] p' Hlt Hp'.
    + injection Hp' as <-. exact Eq.
    + apply (Hbefore j' p'); [lia | exact Hp'].
Qed.

Lemma findSigning_none (g : Settings) (payroll num : Z)
  (rest : list Player) (i : nat) :
  findSigning g payroll num i rest = None <->
  Forall (fun p => canSign g payroll num p = false) rest.
Proof.
  revert i; induction rest as [|q rest IH]; intros i; cbn [findSigning].
  - split; [constructor | reflexivity].
  - destruct (canSign g payroll num q) eqn:Eq.
    + split; [discriminate|]. intros H. inversion H; congruence.
    + rewrite IH. split; [now constructor | now inversion 1].
Qed.

Section WithLeague.
Context {League : Type}.
Variable rosterLength : League -> nat -> nat.
Variable getPayroll : League -> nat -> Z.
Variable signAndSort : Player -> nat -> League -> League.
Variable FREE_AGENCY : Z.
Variable orderByValueDesc : list Player -> list Player.
Variable shuffle : list nat -> list nat.
Variable mathRandom : nat -> Q.

Abbreviation teamTurn' :=
  (teamTurn rosterLength getPayroll signAndSort FREE_AGENCY mathRandom).
Abbreviation autoSign' :=
  (autoSign rosterLength getPayroll signAndSort FREE_AGENCY
     orderByValueDesc shuffle mathRandom).

(** A turn either signs nobody and leaves the league and the list of
    free agents alone, or signs one free agent and takes him off the
    list. *)
Lemma teamTurn_cases (g : Settings) (strategies : list string)
  (st : Loop) (tid : nat) :
  let st' := teamTurn' g strategies st tid in
  (league st' = league st /\ playersSorted st' = playersSorted st /\
   signings st' = signings st) \/
  (exists (i : nat) (p : Player),
      let num := Z.of_nat (rosterLength (league st) tid) in
      let payroll := getPayroll (league st) tid in
      findSigning g payroll num 0 (playersSorted st) = Some (i, p) /\
      num < maxRosterSize g /\
      (existsb (Nat.eqb tid) (userTids g) && (autoPlaySeasons g =? 0)
       = false) /\
      league st' = signAndSort p tid (league st) /\
      playersSorted st' = delete i (playersSorted st) /\
      signings st' = signings st ++ [mkSigning p tid payroll num]).
Proof.
  cbv zeta. unfold teamTurn.
  destruct (existsb (Nat.eqb tid) (userTids g) && (autoPlaySeasons g =? 0))
    eqn:Euser; [left; now repeat split|].
  destruct (phase g =? FREE_AGENCY);
    [destruct (lessThan _ _); [left; now repeat split|]|];
    (destruct (match strategies !! tid with
               | Some strategy => String.eqb strategy "rebuilding"
               | None => false
               end);
     [destruct (lessThan _ _); [left; now repeat split|]|]);
    (destruct (Z.ltb_spec (Z.of_nat (rosterLength (league st) tid))
                 (maxRosterSize g)) as [Hroom|_];
     [|left; now repeat split]);
    (destruct (findSigning g (getPayroll (league st) tid)
                 (Z.of_nat (rosterLength (league st) tid)) 0
                 (playersSorted st)) as [[i p]|] eqn:Ef;
     [right; exists i, p; now repeat split | left; now repeat split]).
Qed.

(** A team's turn either changes nothing but the count of draws, or
    signs the first free agent on the list that the team can sign and
    takes him off the list; the players listed before him are all out
    of the team's reach. *)
Theorem turn_signs_first_in_reach (g : Settings) (strategies : list string)
  (st : Loop) (tid : nat) :
  let st' := teamTurn' g strategies st tid in
  let num := Z.of_nat (rosterLength (league st) tid) in
  let payroll := getPayroll (league st) tid in
  (league st' = league st /\ playersSorted st' = playersSorted st /\
   signings st' = signings st) \/
  (exists (i : nat) (p : Player),
      playersSorted st !! i = Some p /\
      canSign g payroll num p = true /\
      (forall (j : nat) (q : Player),
          (j < i)%nat -> playersSorted st !! j = Some q ->
          canSign g payroll num q = false) /\
      league st' = signAndSort p tid (league st) /\
      playersSorted st' = delete i (playersSorted st) /\
      signings st' = signings st ++ [mkSigning p tid payroll num]).
Proof.
  cbv zeta.
  destruct (teamTurn_cases g strategies st tid)
    as [H|(i & p & Hf & _ & _ & Hl & Hp & Hs)]; [now left|].
  right. destruct (findSigning_first _ _ _ _ _ _ _ Hf)
    as (j & -> & Hj & Hc & Hbefore).
  exists j, p. repeat split; assumption.
Qed.

(** A team signs nobody when it is a user's team and seasons are not
    played automatically, when its roster is full, or when no free agent
    is within its reach. *)
Theorem turn_signs_nobody (g : Settings) (strategies : list string)
  (st : Loop) (tid : nat) :
  (In tid (userTids g) /\ autoPlaySeasons g = 0) \/
  maxRosterSize g <= Z.of_nat (rosterLength (league st) tid) \/
  Forall (fun p => canSign g (getPayroll (league st) tid)
                     (Z.of_nat (rosterLength (league st) tid)) p = false)
    (playersSorted st) ->
  let st' := teamTurn' g strategies st tid in
  league st' = league st /\ playersSorted st' = playersSorted st /\
  signings st' = signings st.
Proof.
  intros Hwhy. cbv zeta.
  destruct (teamTurn_cases g strategies st tid)
    as [H|(i & p & Hf & Hroom & Huser & _)]; [exact H|].
  exfalso. destruct Hwhy as [[Hin Hauto]|[Hfull|Hnone]].
  - apply andb_false_iff in Huser as [Hu|Ha].
    + assert (existsb (Nat.eqb tid) (userTids g) = true); [|congruence].
      apply existsb_exists. exists tid. split; [exact Hin|].
      apply Nat.eqb_refl.
    + apply Z.eqb_neq in Ha. contradiction.
  - lia.
  - apply findSigning_none with (i := 0%nat) in Hnone. congruence.
Qed.

Lemma turn_allowed (g : Settings) (strategies : list string)
  (st : Loop) (tid : nat) :
  let st' := teamTurn' g strategies st tid in
  exists new : list Signing,
    signings st' = signings st ++ new /\
    map signedBy new `sublist_of` [tid] /\
    Forall (allowed g) new /\
    map signedPlayer new ++ playersSorted st' ≡ₚ playersSorted st /\
    playersSorted st' `sublist_of` playersSorted st.
Proof.
  cbv zeta.
  destruct (teamTurn_cases g strategies st tid)
    as [(_ & Hp & Hs)|(i & p & Hf & Hroom & Huser & _ & Hp & Hs)].
  - exists []. rewrite Hs, Hp, app_nil_r.
    split; [reflexivity|]. split; [apply sublist_nil_l|].
    split; [constructor|]. split; reflexivity.
  - destruct (findSigning_first _ _ _ _ _ _ _ Hf)
      as (j & -> & Hj & Hc & _).
    eexists. split; [exact Hs|]. rewrite Hp. cbn [map app].
    split; [reflexivity|]. split; [|split].
    + constructor; [|constructor]. unfold allowed.
      cbn [signedPlayer signedBy payrollThen rosterThen].
      split; [exact Hroom|]. split.
      * unfold canSign in Hc. apply orb_true_iff in Hc as [Hc|Hc].
        -- left. apply Z.leb_le, Hc.
        -- right. apply andb_true_iff in Hc as [Ha Hb].
           split; [apply Z.eqb_eq, Ha | apply Z.ltb_lt, Hb].
      * apply andb_false_iff in Huser as [Hu|Ha].
        -- left. intros Hin.
           assert (existsb (Nat.eqb tid) (userTids g) = true);
             [|congruence].
           apply existsb_exists. exists tid. split; [exact Hin|].
           apply Nat.eqb_refl.
        -- right. apply Z.eqb_neq, Ha.
    + symmetry. apply delete_Permutation, Hj.
    + apply sublist_delete.
Qed.

Lemma turns_allowed (g : Settings) (strategies : list string)
  (tids : list nat) :
  forall st : Loop,
    let st' := fold_left (teamTurn' g strategies) tids st in
    exists new : list Signing,
      signings st' = signings st ++ new /\
      map signedBy new `sublist_of` tids /\
      Forall (allowed g) new /\
      map signedPlayer new ++ playersSorted st' ≡ₚ playersSorted st /\
      playersSorted st' `sublist_of` playersSorted st.
Proof.
  induction tids as [|tid tids IH]; intros st; cbv zeta.
  - exists []. rewrite app_nil_r.
    split; [reflexivity|]. split; [apply sublist_nil_l|].
    split; [constructor|]. split; reflexivity.
  - cbn [fold_left].
    destruct (turn_allowed g strategies st tid)
      as (n1 & Hs1 & Ht1 & Ha1 & Hp1 & Hsub1).
    destruct (IH (teamTurn' g strategies st tid))
      as (n2 & Hs2 & Ht2 & Ha2 & Hp2 & Hsub2).
    exists (n1 ++ n2). rewrite Hs2, Hs1, <- app_assoc.
    split; [reflexivity|]. rewrite !map_app.
    split; [apply (sublist_app _ [tid] _ tids); assumption|].
    split; [apply Forall_app; now split|].
    split; [|etransitivity; eassumption].
    rewrite <- Hp1, <- Hp2, <- !app_assoc. reflexivity.
Qed.

(** No free agent is lost or signed twice: the players signed and the
    players left on the list are together the free agents, and the list
    that is left has kept its order.  With no free agent at all the call
    returns before it draws or signs. *)
Theorem signed_and_left_are_the_free_agents (g : Settings)
  (strategies : list string) (players : list Player) (db : League) :
  let st := autoSign' g strategies players db in
  (players = [] ->
   signings st = [] /\ league st = db /\ draws st = 0%nat) /\
  (players <> [] ->
   map signedPlayer (signings st) ++ playersSorted st
     ≡ₚ orderByValueDesc players /\
   playersSorted st `sublist_of` orderByValueDesc players).
Proof.
  cbv zeta. unfold autoSign. split.
  - intros ->. repeat split.
  - intros Hne. destruct players as [|p players]; [congruence|].
    cbn [length Nat.eqb].
    destruct (turns_allowed g strategies (shuffle (seq 0 (numTeams g)))
                (mkLoop db (orderByValueDesc (p :: players)) 0 []))
      as (new & Hs & _ & _ & Hp & Hsub).
    cbn [signings playersSorted app] in Hs, Hp, Hsub.
    rewrite Hs. split; assumption.
Qed.

(** Every signing the call makes is one the rules allow: the roster had
    room, the contract fitted under the cap or was a minimum contract
    with more than two places free, and the team was not a user's team
    unless seasons are played automatically. *)
Theorem every_signing_is_allowed (g : Settings)
  (strategies : list string) (players : list Player) (db : League)
  (s : Signing) :
  In s (signings (autoSign' g strategies players db)) -> allowed g s.
Proof.
  unfold autoSign. destruct (length players =? 0)%nat; [intros []|].
  destruct (turns_allowed g strategies (shuffle (seq 0 (numTeams g)))
              (mkLoop db (orderByValueDesc players) 0 []))
    as (new & Hs & _ & Ha & _).
  rewrite Hs. cbn [signings app]. intros Hin.
  rewrite Forall_forall in Ha. apply Ha, list_elem_of_In, Hin.
Qed.

(** When the shuffle only reorders the teams, a team signs at most one
    free agent in a call, and only teams of the league sign. *)
Theorem one_signing_per_team (g : Settings)
  (strategies : list string) (players : list Player) (db : League) :
  (forall l, shuffle l ≡ₚ l) ->
  let st := autoSign' g strategies players db in
  NoDup (map signedBy (signings st)) /\
  (forall s, In s (signings st) -> (signedBy s < numTeams g)%nat) /\
  (length (signings st) <= numTeams g)%nat.
Proof.
  intros Hshuffle. cbv zeta. unfold autoSign.
  destruct (length players =? 0)%nat.
  { cbn [signings map length]. repeat split;
      [constructor | intros s [] | lia]. }
  destruct (turns_allowed g strategies (shuffle (seq 0 (numTeams g)))
              (mkLoop db (orderByValueDesc players) 0 []))
    as (new & Hs & Ht & _).
  rewrite Hs. cbn [signings app].
  assert (Hnd : NoDup (shuffle (seq 0 (numTeams g)))).
  { rewrite Hshuffle. apply NoDup_seq. }
  split; [eapply sublist_NoDup; eassumption|]. split.
  - intros s Hin.
    assert (Hel : signedBy s ∈ shuffle (seq 0 (numTeams g))).
    { eapply elem_of_sublist; [|exact Ht].
      apply list_elem_of_In, in_map, Hin. }
    rewrite Hshuffle in Hel. apply elem_of_seq in Hel. lia.
  - apply sublist_length in Ht. rewrite length_map in Ht.
    rewrite Ht, Hshuffle, length_seq. reflexivity.
Qed.

End WithLeague.

(** ** On the sample league *)

Lemma turn_signs_nobody_witness :
  let st := mkLoop tt samplePlayers 0 [] in
  let st' :=
    teamTurn (fun _ _ => 40%nat) (fun _ _ => 80000) (fun _ _ db => db) 8
      (fun _ => 1%Q) sampleSettings [] st 1 in
  (In 1%nat (userTids sampleSettings) /\
   autoPlaySeasons sampleSettings = 0) /\
  league st' = league st /\ playersSorted st' = playersSorted st /\
  signings st' = signings st.
Proof.
  intros st st'.
  assert (Hwhy : In 1%nat (userTids sampleSettings) /\
                 autoPlaySeasons sampleSettings = 0)
    by (split; [left; reflexivity | reflexivity]).
  split; [exact Hwhy|].
  exact (turn_signs_nobody (fun _ _ => 40%nat) (fun _ _ => 80000)
           (fun _ _ db => db) 8 (fun _ => 1%Q) sampleSettings [] st 1
           (or_introl Hwhy)).
Defined.

Lemma every_signing_is_allowed_witness :
  let s :=
    mkSigning (mkPlayer 12 60 (mkContract 9000 2029)) 0 80000 40 in
  In s (signings sampleAutoSign) /\ allowed sampleSettings s.
Proof.
  intros s.
  assert (Hin : In s (signings sampleAutoSign)) by (left; reflexivity).
  split; [exact Hin|].
  exact (every_signing_is_allowed (fun _ _ => 40%nat) (fun _ _ => 80000)
           (fun _ _ db => db) 8 (fun players => players)
           (fun tids => tids) (fun _ => 1%Q) sampleSettings
           ["contending"; "rebuilding"; "contending"]%string
           samplePlayers tt s Hin).
Defined.

Lemma one_signing_per_team_witness :
  (forall l : list nat, (fun tids : list nat => tids) l ≡ₚ l) /\
  NoDup (map signedBy (signings sampleAutoSign)) /\
  (length (signings sampleAutoSign) <= numTeams sampleSettings)%nat.
Proof.
  assert (Hshuffle : forall l : list nat,
             (fun tids : list nat => tids) l ≡ₚ l)
    by (intros l; reflexivity).
  split; [exact Hshuffle|].
  destruct (one_signing_per_team (fun _ _ => 40%nat) (fun _ _ => 80000)
              (fun _ _ db => db) 8 (fun players => players)
              (fun tids => tids) (fun _ => 1%Q) sampleSettings
              ["contending"; "rebuilding"; "contending"]%string
              samplePlayers tt Hshuffle)
    as (Hnd & _ & Hlen).
  split; [exact Hnd | exact Hlen].
Defined.

End AutoSignFacts.

(* ===================================================================== *)
(** * Facts about the clock of an entry *)
(* ===================================================================== *)

Module ClockFacts.
Import JsString JsNumber JsNumberFacts PlayByPlayLogger TwoDigits.

Lemma padded_seconds (sec : Z) :
  0 <= sec <= 59 ->
  (if sec <? 10 then "0" ^^ showZ sec else showZ sec) = twoDigits sec.
Proof.
  intros H.
  assert (Hn : forall n : nat, (n < 60)%nat ->
               (if Z.of_nat n <? 10 then "0" ^^ showZ (Z.of_nat n)
                else showZ (Z.of_nat n)) = twoDigits (Z.of_nat n)).
  { intros n Hlt.
    do 60 (destruct n as [|n]; [vm_compute; reflexivity|]). lia. }
  rewrite <- (Z2Nat.id sec) by lia. apply Hn. lia.
Qed.

Lemma showIntegral_safe (v : Z) :
  Z.abs v < 2 ^ 53 -> showIntegral v = showZ v.
Proof.
  intros H. unfold showIntegral.
  now destruct (Z.ltb_spec (Z.abs v) (2 ^ 53)); [|lia].
Qed.

Lemma toDouble_finite (x c : Q) : toDouble x = Finite c -> c = nearest x.
Proof.
  unfold toDouble. destruct (Qle_bool _ _); [discriminate|].
  now intros [= <-].
Qed.

(** For a clock that is not negative and rounds to the finite double
    [c], the time reads the minutes of [c], a colon and two digits of
    seconds between 00 and 59: the product of the fractional part of
    [c] with 60, rounded as a double and then down, never reaches 60. *)
Theorem formatTime_two_digit_seconds (clock c : Q) :
  (0 <= clock)%Q ->
  toDouble clock = Finite c ->
  exists sec : Z,
    0 <= sec <= 59 /\
    sec = Qfloor (nearest ((c - inject_Z (Qfloor c)) * 60)) /\
    formatTime clock = showIntegral (Qfloor c) ^^ ":" ^^ twoDigits sec.
Proof.
  intros Hpos Hc. unfold formatTime. rewrite Hc.
  apply toDouble_finite in Hc.
  assert (Hc0 : (0 <= c)%Q) by (rewrite Hc; now apply nearest_nonneg).
  assert (Hb : Qle_bool 0 c = true) by (apply Qle_bool_iff, Hc0).
  rewrite Hb.
  destruct (fraction_of_double clock Hpos) as [Hlo Hhi].
  rewrite <- Hc in Hlo, Hhi.
  set (frac := (c - inject_Z (Qfloor c))%Q) in *.
  destruct (product_below_sixty frac Hlo Hhi) as [Hp0 Hp60].
  set (sec := Qfloor (nearest (frac * 60))).
  assert (Hsec : 0 <= sec <= 59).
  { unfold sec. split.
    - change 0 with (Qfloor 0). now apply Qfloor_resp_le.
    - assert (Qfloor (nearest (frac * 60)) < 60); [|lia].
      apply floor_below. exact Hp60. }
  exists sec. split; [exact Hsec|]. split; [reflexivity|].
  rewrite (showIntegral_safe sec) by lia.
  now rewrite (padded_seconds sec Hsec).
Qed.

(** The clock 0.35 stands for a double just below it; the product of
    that double with 60 rounds to 21, where the exact product is below
    21. *)
Lemma formatTime_two_digit_seconds_witness :
  let c := (3152519739159347 # 9007199254740992)%Q in
  (0 <= 7 # 20)%Q /\
  toDouble (7 # 20) = Finite c /\
  (c * 60 < 21)%Q /\
  exists sec : Z,
    0 <= sec <= 59 /\
    sec = Qfloor (nearest ((c - inject_Z (Qfloor c)) * 60)) /\
    formatTime (7 # 20) = showIntegral (Qfloor c) ^^ ":" ^^ twoDigits sec.
Proof.
  intros c.
  assert (Hpos : (0 <= 7 # 20)%Q) by (unfold Qle; simpl; lia).
  assert (Hc : toDouble (7 # 20) = Finite c) by (vm_compute; reflexivity).
  split; [exact Hpos|]. split; [exact Hc|]. split; [reflexivity|].
  exact (formatTime_two_digit_seconds (7 # 20) c Hpos Hc).
Defined.

(** Clocks whose seconds depend on the rounding, a negative clock, and
    a clock beyond the range of doubles. *)
Example formatTime_samples :
  formatTime (7 # 20) = "0:21"%string /\
  formatTime (41 # 5) = "8:11"%string /\
  formatTime (29 # 2) = "14:30"%string /\
  formatTime (- (1 # 2)) = "-1:0-30"%string /\
  formatTime (inject_Z (2 ^ 60)) = "1152921504606847000:00"%string /\
  formatTime (inject_Z (10 ^ 400)) = "Infinity:NaN"%string.
Proof. repeat split; vm_compute; reflexivity. Qed.

End ClockFacts.
